(** * Orchestration engine of the AI orchestration system

    A shallow embedding of [backend/app/core/orchestrator.py] together with
    the agent template shared by [backend/app/agents/base.py] and the three
    concrete agents ([coding_agent.py], [design_agent.py],
    [marketing_agent.py]).

    Modelling conventions.
    - Python [float] values (costs, progress) are exact rationals [Q];
      rounding of binary floating point is outside the model.
    - Objects mutated in place live in a store: task managers in the
      dictionary [_tasks], agents in the per-type lists of [_agents].  An
      agent object is referred to by its position ([AgentRef]).
    - A Python call either returns or raises: [Outcome].
    - The language-model calls ([model.agenerate],
      [verification_model.agenerate]) are the only points where a lifecycle
      coroutine is really suspended.  What such a call eventually delivers is
      an input of the model ([ModelReply], [VerifierReply]); everything
      between two such points runs without interruption on the asyncio loop.
    - Wall-clock fields ([created_at], [updated_at]) are not modelled. *)

From Stdlib Require Import QArith Lqa.
From stdpp Require Import gmap strings list.

Open Scope string_scope.

(** ** Enumerations ([endpoints/tasks.py], [endpoints/agents.py]) *)

Inductive TaskType := CODE | DESIGN | MARKETING.
Inductive TaskPriority := LOW | MEDIUM | HIGH.
Inductive TaskStatus := PENDING | IN_PROGRESS | VERIFYING | COMPLETED | FAILED.
Inductive AgentType := CODING | DESIGN_AGENT | MARKETING_AGENT.
Inductive AgentStatus := IDLE | BUSY | ERROR | OFFLINE.

#[global] Instance TaskType_eq_dec : EqDecision TaskType.
Proof. solve_decision. Defined.
#[global] Instance TaskStatus_eq_dec : EqDecision TaskStatus.
Proof. solve_decision. Defined.
#[global] Instance AgentStatus_eq_dec : EqDecision AgentStatus.
Proof. solve_decision. Defined.

(** ** Exceptions and results of calls *)

Inductive Exn :=
| KeyError (key : string)
| ValueError (msg : string).

Inductive Outcome (A : Type) :=
| Return (a : A)
| Raise (e : Exn).
Arguments Return {A} a.
Arguments Raise {A} e.

(** ** Configuration ([core/config.py]) *)

Record Settings := { COST_LIMIT : Q }.

(** [a > b] on floats. *)
Definition Qgtb (a b : Q) : bool := negb (Qle_bool a b).

(** ** [AgentResult] ([agents/base.py]) *)

Module AgentResult.
Record t := mk {
  success : bool;
  output : list (string * string);
  error : option string;
  tokens_used : Z;
  cost : Q;
  metadata : list (string * string)
}.

(** [AgentResult(success=False, output={}, error=msg)]: the remaining
    fields take their declared defaults. *)
Definition failure (msg : string) : t :=
  mk false [] (Some msg) 0%Z 0%Q [].
End AgentResult.

(** ** [BaseAgent] ([agents/base.py]) *)

Module Agent.
Record t := mk {
  agent_id : string;
  agent_type : AgentType;
  status : AgentStatus;
  current_task_id : option string;
  total_tasks_completed : Z;
  total_cost : Q;
  total_tokens : Z
}.

(** [BaseAgent.__init__] *)
Definition init (agent_id : string) (agent_type : AgentType) : t :=
  mk agent_id agent_type IDLE None 0%Z 0%Q 0%Z.

(** [_update_status] *)
Definition _update_status (self : t) (new_status : AgentStatus) : t :=
  mk (agent_id self) (agent_type self) new_status (current_task_id self)
     (total_tasks_completed self) (total_cost self) (total_tokens self).

Definition set_current_task_id (self : t) (tid : option string) : t :=
  mk (agent_id self) (agent_type self) (status self) tid
     (total_tasks_completed self) (total_cost self) (total_tokens self).

(** [_track_usage] *)
Definition _track_usage (tokens : Z) (cost : Q) (self : t) : t :=
  mk (agent_id self) (agent_type self) (status self) (current_task_id self)
     (total_tasks_completed self) (total_cost self + cost)%Q
     (total_tokens self + tokens)%Z.

(** [_calculate_cost] (identical in the three concrete agents) *)
Definition _calculate_cost (tokens : Z) (is_verification : bool) : Q :=
  let base_rate := if is_verification then 0.002%Q else 0.001%Q in
  (inject_Z tokens * base_rate)%Q.

(** [prepare_task]: refuses unless the agent is idle, otherwise records the
    task and becomes busy. *)
Definition prepare_task (self : t) (task_id : string) : t * bool :=
  if decide (status self = IDLE)
  then (_update_status (set_current_task_id self (Some task_id)) BUSY, true)
  else (self, false).

(** [cleanup_task] *)
Definition cleanup_task (self : t) : t :=
  _update_status
    (mk (agent_id self) (agent_type self) (status self) None
        (total_tasks_completed self + 1)%Z (total_cost self)
        (total_tokens self))
    IDLE.

(** [handle_error] *)
Definition handle_error (self : t) : t :=
  set_current_task_id (_update_status self ERROR) None.
End Agent.

(** ** [TaskManager] ([core/orchestrator.py]) *)

Module Task.
Record t := mk {
  task_id : string;
  type : TaskType;
  priority : TaskPriority;
  status : TaskStatus;
  progress : Q;
  result : option AgentResult.t;
  error : option string;
  cost : Q
}.

(** [TaskManager.__init__] *)
Definition init (task_id : string) (task_type : TaskType)
    (priority : TaskPriority) : t :=
  mk task_id task_type priority PENDING 0%Q None None 0%Q.

(** [TaskManager.update_status]: an unconditional write. *)
Definition update_status (status : TaskStatus) (progress : option Q)
    (self : t) : t :=
  mk (task_id self) (type self) (priority self) status
     (match progress with Some p => p | None => Task.progress self end)
     (result self) (error self) (cost self).

Definition set_error (e : option string) (self : t) : t :=
  mk (task_id self) (type self) (priority self) (status self)
     (progress self) (result self) e (cost self).

Definition set_result (r : option AgentResult.t) (self : t) : t :=
  mk (task_id self) (type self) (priority self) (status self)
     (progress self) r (error self) (cost self).

Definition set_cost (c : Q) (self : t) : t :=
  mk (task_id self) (type self) (priority self) (status self)
     (progress self) (result self) (error self) c.

(** [status in [TaskStatus.COMPLETED, TaskStatus.FAILED]] *)
Definition is_terminal (s : TaskStatus) : bool :=
  match s with COMPLETED | FAILED => true | _ => false end.
End Task.

(** ** The orchestrator's state *)

(** [_agents]: a dictionary with exactly the three task types as keys. *)
Record AgentPool := {
  code_agents : list Agent.t;
  design_agents : list Agent.t;
  marketing_agents : list Agent.t
}.

Definition agents_of (p : AgentPool) (ty : TaskType) : list Agent.t :=
  match ty with
  | CODE => code_agents p
  | DESIGN => design_agents p
  | MARKETING => marketing_agents p
  end.

Definition with_agents (p : AgentPool) (ty : TaskType) (l : list Agent.t)
    : AgentPool :=
  match ty with
  | CODE => Build_AgentPool l (design_agents p) (marketing_agents p)
  | DESIGN => Build_AgentPool (code_agents p) l (marketing_agents p)
  | MARKETING => Build_AgentPool (code_agents p) (design_agents p) l
  end.

(** A reference to an agent object: its list and its position there. *)
Definition AgentRef : Type := TaskType * nat.

Record Orchestrator := {
  _agents : AgentPool;
  _tasks : gmap string Task.t;
  _total_cost : Q;
  _cost_limit_reached : bool
}.

(** [Orchestrator.__init__] *)
Definition Orchestrator_init : Orchestrator :=
  {| _agents := Build_AgentPool [] [] [];
     _tasks := ∅;
     _total_cost := 0%Q;
     _cost_limit_reached := false |}.

Definition agent_at (o : Orchestrator) (r : AgentRef) : option Agent.t :=
  agents_of (_agents o) r.1 !! r.2.

(** In-place mutation of one agent object. *)
Definition modify_agent (r : AgentRef) (f : Agent.t → Agent.t)
    (o : Orchestrator) : Orchestrator :=
  {| _agents := with_agents (_agents o) r.1
                  (alter f r.2 (agents_of (_agents o) r.1));
     _tasks := _tasks o;
     _total_cost := _total_cost o;
     _cost_limit_reached := _cost_limit_reached o |}.

(** In-place mutation of one task object. *)
Definition modify_task (task_id : string) (f : Task.t → Task.t)
    (o : Orchestrator) : Orchestrator :=
  {| _agents := _agents o;
     _tasks := alter f task_id (_tasks o);
     _total_cost := _total_cost o;
     _cost_limit_reached := _cost_limit_reached o |}.

Definition set_total_cost (c : Q) (o : Orchestrator) : Orchestrator :=
  {| _agents := _agents o;
     _tasks := _tasks o;
     _total_cost := c;
     _cost_limit_reached := _cost_limit_reached o |}.

(** [task.update_status(FAILED); task.error = msg] *)
Definition fail_task (task_id : string) (msg : option string)
    (o : Orchestrator) : Orchestrator :=
  modify_task task_id
    (λ t, Task.set_error msg (Task.update_status FAILED None t)) o.

(** ** Orchestrator operations *)

(** [submit_task].  [task_id] stands for the value of [str(uuid4())]; the
    coroutine created by [asyncio.create_task] is recorded by the event
    loop below.  Title, description and context only reach the prompt sent
    to the model and are left out. *)
Definition submit_task (o : Orchestrator) (task_id : string)
    (task_type : TaskType) (priority : TaskPriority) : Orchestrator :=
  {| _agents := _agents o;
     _tasks := <[task_id := Task.init task_id task_type priority]> (_tasks o);
     _total_cost := _total_cost o;
     _cost_limit_reached := _cost_limit_reached o |}.

(** The dictionary returned by [get_task_status]. *)
Record TaskView := {
  view_id : string;
  view_type : TaskType;
  view_status : TaskStatus;
  view_progress : Q;
  view_cost : Q;
  view_result : option (list (string * string));
  view_error : option string
}.

(** [get_task_status] *)
Definition get_task_status (o : Orchestrator) (task_id : string)
    : Outcome TaskView :=
  match _tasks o !! task_id with
  | None => Raise (ValueError "Task not found")
  | Some task =>
      Return {| view_id := task_id;
                view_type := Task.type task;
                view_status := Task.status task;
                view_progress := Task.progress task;
                view_cost := Task.cost task;
                view_result := AgentResult.output <$> Task.result task;
                view_error := Task.error task |}
  end.

(** [cancel_task] *)
Definition cancel_task (o : Orchestrator) (task_id : string)
    : Outcome (Orchestrator * bool) :=
  match _tasks o !! task_id with
  | None => Return (o, false)
  | Some task =>
      if Task.is_terminal (Task.status task) then Return (o, false)
      else Return (fail_task task_id (Some "Task cancelled by user") o, true)
  end.

(** The loop of [_get_available_agent]: the first agent of the list whose
    status is ["idle"], with its position (counted from [i]). *)
Fixpoint first_idle (l : list Agent.t) (i : nat) : option (nat * Agent.t) :=
  match l with
  | [] => None
  | agent :: rest =>
      if decide (Agent.status agent = IDLE) then Some (i, agent)
      else first_idle rest (S i)
  end.

(** [_get_available_agent]: returns the agent object (here: its reference
    and its current contents) and modifies nothing. *)
Definition _get_available_agent (o : Orchestrator) (task_type : TaskType)
    : option (AgentRef * Agent.t) :=
  (λ '(i, agent), ((task_type, i), agent))
    <$> first_idle (agents_of (_agents o) task_type) 0.

(** [_check_cost_limit] *)
Definition _check_cost_limit (settings : Settings) (o : Orchestrator)
    (estimated_cost : Q) : Orchestrator * bool :=
  if Qgtb (_total_cost o + estimated_cost) (COST_LIMIT settings) then
    (if negb (_cost_limit_reached o)
     then {| _agents := _agents o;
             _tasks := _tasks o;
             _total_cost := _total_cost o;
             _cost_limit_reached := true |}
     else o,
     false)
  else (o, true).

(** ** The lifecycle coroutine [_process_task] *)

(** What [self.model.agenerate] delivers to [execute_task]: an exception, or
    a response, represented by the [AgentResult] that [_parse_response]
    builds from it and by [response.usage.total_tokens]. *)
Inductive ModelReply :=
| ModelRaised (msg : string)
| ModelResponse (result : AgentResult.t) (total_tokens : Z).

(** What [self.verification_model.agenerate] delivers to [validate_result]:
    an exception, or a text that does or does not contain ["VALID"], with
    its token usage.  ([CodingAgent.validate_result] answers [True] without
    asking the verifier when the result has no code; for the orchestrator
    this is the reply [VerifierSaid true 0].) *)
Inductive VerifierReply :=
| VerifierRaised (msg : string)
| VerifierSaid (is_valid : bool) (total_tokens : Z).

(** Where a lifecycle coroutine stands. *)
Inductive Coroutine :=
| Scheduled
| AwaitModel (agent : AgentRef)
| AwaitVerifier (agent : AgentRef) (result : AgentResult.t)
| Returned.

(** [execute_task] after [model.agenerate] has delivered: the normal path
    tracks usage and calls [cleanup_task]; the [except] clause calls
    [handle_error] and reports the failure. *)
Definition execute_task_resume (o : Orchestrator) (agent : AgentRef)
    (reply : ModelReply) : Orchestrator * AgentResult.t :=
  match reply with
  | ModelRaised msg =>
      (modify_agent agent Agent.handle_error o, AgentResult.failure msg)
  | ModelResponse result total_tokens =>
      (modify_agent agent
         (λ a, Agent.cleanup_task
                 (Agent._track_usage total_tokens
                    (Agent._calculate_cost total_tokens false) a)) o,
       result)
  end.

(** [_process_task] from the return of [agent.execute_task] (line 165) up to
    the suspension inside [agent.validate_result] or the return. *)
Definition after_execute (settings : Settings) (o : Orchestrator)
    (task_id : string) (agent : AgentRef) (result : AgentResult.t)
    : Orchestrator * Coroutine :=
  if AgentResult.success result then
    let new_cost := (_total_cost o + AgentResult.cost result)%Q in
    let '(o, ok) := _check_cost_limit settings o (AgentResult.cost result) in
    if ok then
      let o := set_total_cost new_cost o in
      let o := modify_task task_id (Task.set_cost (AgentResult.cost result)) o in
      let o := modify_task task_id
                 (Task.update_status VERIFYING (Some 0.8%Q)) o in
      (o, AwaitVerifier agent result)
    else
      (fail_task task_id (Some "Cost limit reached") o, Returned)
  else
    (fail_task task_id (AgentResult.error result) o, Returned).

(** [_process_task] from its start up to the suspension inside
    [agent.execute_task] or an early return. *)
Definition process_start (settings : Settings) (o : Orchestrator)
    (task_id : string) : Outcome (Orchestrator * Coroutine) :=
  match _tasks o !! task_id with
  | None => Raise (KeyError task_id)
  | Some task =>
      match _get_available_agent o (Task.type task) with
      | None =>
          Return (fail_task task_id (Some "No available agent found") o,
                  Returned)
      | Some (agent, a) =>
          let o := modify_task task_id
                     (Task.update_status IN_PROGRESS (Some 0.2%Q)) o in
          let '(a', ready) := Agent.prepare_task a task_id in
          if ready then
            Return (modify_agent agent (λ _, a') o, AwaitModel agent)
          else
            Return (after_execute settings o task_id agent
                      (AgentResult.failure "Agent is busy or unavailable"))
      end
  end.

(** [_process_task] once [model.agenerate] has delivered. *)
Definition process_model (settings : Settings) (o : Orchestrator)
    (task_id : string) (agent : AgentRef) (reply : ModelReply)
    : Orchestrator * Coroutine :=
  let '(o, result) := execute_task_resume o agent reply in
  after_execute settings o task_id agent result.

(** [validate_result] after [verification_model.agenerate] has delivered. *)
Definition validate_result_resume (o : Orchestrator) (agent : AgentRef)
    (reply : VerifierReply) : Orchestrator * bool :=
  match reply with
  | VerifierRaised _ => (modify_agent agent Agent.handle_error o, false)
  | VerifierSaid is_valid total_tokens =>
      (modify_agent agent
         (Agent._track_usage total_tokens
            (Agent._calculate_cost total_tokens true)) o,
       is_valid)
  end.

(** [_process_task] once [verification_model.agenerate] has delivered
    (lines 179-188). *)
Definition process_verifier (o : Orchestrator) (task_id : string)
    (agent : AgentRef) (result : AgentResult.t) (reply : VerifierReply)
    : Orchestrator * Coroutine :=
  let '(o, is_valid) := validate_result_resume o agent reply in
  if negb is_valid then
    (fail_task task_id (Some "Result validation failed") o, Returned)
  else
    let o := modify_task task_id
               (Task.update_status COMPLETED (Some 1%Q)) o in
    (modify_task task_id (Task.set_result (Some result)) o, Returned).

(** One lifecycle run from start to return with no other coroutine in
    between; [reply] and [verdict] are consumed only if the run reaches the
    corresponding call.  The handler [except Exception] of [_process_task]
    has no case here: [execute_task] and [validate_result] catch what is
    raised inside them, and nothing else in the [try] block raises. *)
Definition _process_task (settings : Settings) (o : Orchestrator)
    (task_id : string) (reply : ModelReply) (verdict : VerifierReply)
    : Outcome Orchestrator :=
  match process_start settings o task_id with
  | Raise e => Raise e
  | Return (o, AwaitModel agent) =>
      match process_model settings o task_id agent reply with
      | (o, AwaitVerifier agent result) =>
          Return (process_verifier o task_id agent result verdict).1
      | (o, _) => Return o
      end
  | Return (o, _) => Return o
  end.

(** ** Start-up *)

(** [_create_agent]: the agent joins the list of its type when its
    [initialize] succeeded ([initialized]). *)
Definition agent_class (task_type : TaskType) : AgentType :=
  match task_type with
  | CODE => CODING
  | DESIGN => DESIGN_AGENT
  | MARKETING => MARKETING_AGENT
  end.

Definition _create_agent (o : Orchestrator) (agent_type : TaskType)
    (agent_id : string) (initialized : bool) : Orchestrator * bool :=
  if initialized then
    ({| _agents := with_agents (_agents o) agent_type
                     (agents_of (_agents o) agent_type
                        ++ [Agent.init agent_id (agent_class agent_type)]);
        _tasks := _tasks o;
        _total_cost := _total_cost o;
        _cost_limit_reached := _cost_limit_reached o |}, true)
  else (o, false).

(** [Orchestrator.initialize] when the three agents initialise. *)
Definition initialize (o : Orchestrator) : Orchestrator :=
  let o := (_create_agent o CODE "coding-agent-1" true).1 in
  let o := (_create_agent o DESIGN "design-agent-1" true).1 in
  (_create_agent o MARKETING "marketing-agent-1" true).1.

(** ** The event loop

    Lifecycle coroutines of different tasks interleave at their suspension
    points.  [coros] records where the coroutine of each submitted task
    stands; an [Event] is one uninterrupted run on the loop. *)

Record System := {
  orch : Orchestrator;
  coros : gmap string Coroutine
}.

Inductive Event :=
| Submit (task_id : string) (task_type : TaskType) (priority : TaskPriority)
| Cancel (task_id : string)
| Start (task_id : string)
| ModelDone (task_id : string) (reply : ModelReply)
| VerifierDone (task_id : string) (reply : VerifierReply).

(** One event; [None] when the event cannot happen in this state (the
    identifier drawn by [uuid4] is not fresh, or the coroutine is not
    waiting for this). *)
Definition step (settings : Settings) (s : System) (e : Event)
    : option System :=
  match e with
  | Submit task_id task_type priority =>
      match _tasks (orch s) !! task_id with
      | Some _ => None
      | None =>
          Some {| orch := submit_task (orch s) task_id task_type priority;
                  coros := <[task_id := Scheduled]> (coros s) |}
      end
  | Cancel task_id =>
      match cancel_task (orch s) task_id with
      | Return (o, _) => Some {| orch := o; coros := coros s |}
      | Raise _ => None
      end
  | Start task_id =>
      match coros s !! task_id with
      | Some Scheduled =>
          match process_start settings (orch s) task_id with
          | Return (o, c) =>
              Some {| orch := o; coros := <[task_id := c]> (coros s) |}
          | Raise _ =>
              Some {| orch := orch s;
                      coros := <[task_id := Returned]> (coros s) |}
          end
      | _ => None
      end
  | ModelDone task_id reply =>
      match coros s !! task_id with
      | Some (AwaitModel agent) =>
          let '(o, c) :=
            process_model settings (orch s) task_id agent reply in
          Some {| orch := o; coros := <[task_id := c]> (coros s) |}
      | _ => None
      end
  | VerifierDone task_id reply =>
      match coros s !! task_id with
      | Some (AwaitVerifier agent result) =>
          let '(o, c) :=
            process_verifier (orch s) task_id agent result reply in
          Some {| orch := o; coros := <[task_id := c]> (coros s) |}
      | _ => None
      end
  end.

(** A schedule: events in the order the loop runs them. *)
Fixpoint run (settings : Settings) (s : System) (events : list Event)
    : option System :=
  match events with
  | [] => Some s
  | e :: rest =>
      match step settings s e with
      | Some s' => run settings s' rest
      | None => None
      end
  end.

(** The system right after start-up: no task has been submitted. *)
Definition boot (o : Orchestrator) : System :=
  {| orch := o; coros := ∅ |}.

(** ** Readings used in the statements *)

Definition task_of (o : Orchestrator) (task_id : string) : option Task.t :=
  _tasks o !! task_id.

Definition agent_status (o : Orchestrator) (r : AgentRef)
    : option AgentStatus :=
  Agent.status <$> agent_at o r.

(** ** Concrete states for the scenarios *)

Definition limit_5 : Settings := {| COST_LIMIT := 5%Q |}.

Definition ready : Orchestrator := initialize Orchestrator_init.

Definition code_result (c : Q) : AgentResult.t :=
  AgentResult.mk true [("code", "print(1)")] None 10%Z c [].

Definition the_coding_agent : AgentRef := (CODE, 0%nat).

(** A ledger at 4.5 with one submitted code task. *)
Definition nearly_spent : Orchestrator :=
  set_total_cost 4.5%Q (submit_task ready "t1" CODE MEDIUM).

(** The agent as [prepare_task] leaves it when it accepts [task_id]. *)
Definition busy_with (task_id : string) (a : Agent.t) : Agent.t :=
  Agent._update_status (Agent.set_current_task_id a (Some task_id)) BUSY.

(** ** Properties named in the specification *)

(** The task state machine as the specification words it (section 4.1):
    the edges [Pending -> InProgress], [InProgress -> Verifying],
    [InProgress -> Failed], [Verifying -> Completed], [Verifying -> Failed],
    and cancellation from any non-terminal state to [Failed]; no edge leaves
    [Completed] or [Failed]. *)
Definition spec_edge (from to : TaskStatus) : bool :=
  match from, to with
  | PENDING, IN_PROGRESS => true
  | IN_PROGRESS, VERIFYING => true
  | IN_PROGRESS, FAILED => true
  | VERIFYING, COMPLETED => true
  | VERIFYING, FAILED => true
  | PENDING, FAILED => true
  | _, _ => false
  end.




(** A failed [AgentResult] carries an error message, as every failure
    result built by the agents does. *)
Definition reports_error (r : AgentResult.t) : Prop :=
  AgentResult.success r = false → is_Some (AgentResult.error r).




(** The single place where the ledger grows: the cost step of a lifecycle
    whose execution succeeded and whose check passed. *)
Definition reserve_step (settings : Settings) (s : System) (e : Event)
    (s' : System) : Prop :=
  ∃ tid r tokens,
    e = ModelDone tid (ModelResponse r tokens) ∧
    AgentResult.success r = true ∧
    (_total_cost (orch s) + AgentResult.cost r <= COST_LIMIT settings)%Q ∧
    _total_cost (orch s') = (_total_cost (orch s) + AgentResult.cost r)%Q.

(** An agent is held by a lifecycle from [prepare_task] until
    [cleanup_task] or [handle_error], that is, while the lifecycle waits
    for the model inside [execute_task]. *)
Definition held_by (s : System) (r : AgentRef) (tid : string) : Prop :=
  coros s !! tid = Some (AwaitModel r).

Definition held (s : System) (r : AgentRef) : Prop :=
  ∃ tid, held_by s r tid.

Definition holders_exclusive (s : System) : Prop :=
  ∀ tid r, held_by s r tid →
    (∃ a, agent_at (orch s) r = Some a ∧ Agent.status a ≠ IDLE) ∧
    (∀ tid', held_by s r tid' → tid' = tid).

(** Whether an exception is raised inside [execute_task] or
    [validate_result] during an uninterrupted lifecycle fed with [reply]
    and [verdict]; the verdict is only asked for after a successful
    execution whose cost was admitted. *)
Definition lifecycle_raises (settings : Settings) (o : Orchestrator)
    (reply : ModelReply) (verdict : VerifierReply) : bool :=
  match reply with
  | ModelRaised _ => true
  | ModelResponse result _ =>
      AgentResult.success result
      && negb (Qgtb (_total_cost o + AgentResult.cost result)
                 (COST_LIMIT settings))
      && match verdict with VerifierRaised _ => true | _ => false end
  end.

(** Every agent of a category is in [Error] and none of them is held by a
    lifecycle still waiting for the model. *)
Definition category_lost (s : System) (ty : TaskType) : Prop :=
  ∀ k a, agent_at (orch s) (ty, k) = Some a →
         Agent.status a = ERROR ∧ ¬ held s (ty, k).

(** What one event does to the agents and to the coroutines: nothing to
    the agents; an acquisition ([prepare_task] on an idle agent); a release
    (the end of [execute_task], through [cleanup_task] or [handle_error]);
    or the end of [validate_result], which touches the agent without
    holding it. *)
Inductive agent_effect (s s' : System) : Prop :=
| eff_quiet :
    _agents (orch s') = _agents (orch s) →
    (coros s' = coros s ∨
     ∃ tid c, coros s' = <[tid := c]> (coros s) ∧ ∀ r, c ≠ AwaitModel r) →
    agent_effect s s'
| eff_acquire tid r a :
    agent_at (orch s) r = Some a →
    Agent.status a = IDLE →
    _agents (orch s')
    = _agents (modify_agent r (λ _, busy_with tid a) (orch s)) →
    coros s' = <[tid := AwaitModel r]> (coros s) →
    agent_effect s s'
| eff_release tid r f c :
    coros s !! tid = Some (AwaitModel r) →
    _agents (orch s') = _agents (modify_agent r f (orch s)) →
    (∀ a, Agent.status (f a) = IDLE ∨ Agent.status (f a) = ERROR) →
    coros s' = <[tid := c]> (coros s) →
    (∀ r', c ≠ AwaitModel r') →
    agent_effect s s'
| eff_validate tid r result f :
    coros s !! tid = Some (AwaitVerifier r result) →
    _agents (orch s') = _agents (modify_agent r f (orch s)) →
    (∀ a, Agent.status (f a) = Agent.status a ∨ Agent.status (f a) = ERROR) →
    coros s' = <[tid := Returned]> (coros s) →
    agent_effect s s'.

(** Concrete schedules. *)
Definition schedule_A : list Event :=
  [Submit "t1" CODE MEDIUM; Start "t1";
   ModelDone "t1" (ModelResponse (code_result 2) 10);
   VerifierDone "t1" (VerifierSaid true 5)].

(** Scenario D: the task is cancelled before its lifecycle starts. *)
Definition schedule_D : list Event :=
  [Submit "t1" CODE MEDIUM; Cancel "t1"; Start "t1";
   ModelDone "t1" (ModelResponse (code_result 0) 10);
   VerifierDone "t1" (VerifierSaid true 5)].

(** Two code tasks on the single coding agent: the second is dispatched
    while the first is being validated, and the validation of the first
    raises while the second waits for the model. *)
Definition schedule_overlap : list Event :=
  [Submit "t1" CODE MEDIUM; Submit "t2" CODE MEDIUM; Start "t1";
   ModelDone "t1" (ModelResponse (code_result 0) 10);
   Start "t2";
   VerifierDone "t1" (VerifierRaised "connection reset")].

(** The second lifecycle gets its model response. *)
Definition schedule_return : list Event :=
  [ModelDone "t2" (ModelResponse (code_result 0) 10)].

(** A third code task is submitted and started. *)
Definition schedule_reuse : list Event :=
  [Submit "t3" CODE MEDIUM; Start "t3"].

(** A lifecycle whose model call raises, then a second code task. *)
Definition schedule_raise : list Event :=
  [Submit "t1" CODE MEDIUM; Start "t1";
   ModelDone "t1" (ModelRaised "timeout")].

Definition schedule_next : list Event :=
  [Submit "t2" CODE MEDIUM].

(** The state a schedule leads to from [s] (and [s] itself if the schedule
    cannot run). *)
Definition state_after (settings : Settings) (s : System)
    (events : list Event) : System :=
  default s (run settings s events).

(** One code task submitted, nothing started. *)
Definition one_submitted : System :=
  state_after limit_5 (boot ready) [Submit "t1" CODE MEDIUM].

(** The coding agent after a model call that raised. *)
Definition after_raise : System :=
  state_after limit_5 (boot ready) schedule_raise.

(** ** Further operations of the source *)

(** [BaseAgent._check_cost_limit] ([agents/base.py]): the agent's own test
    of an estimate against its accumulated usage cost. *)
Definition agent_check_cost_limit (settings : Settings) (self : Agent.t)
    (estimated_cost : Q) : bool :=
  if Qgtb (Agent.total_cost self + estimated_cost) (COST_LIMIT settings)
  then false else true.

(** The dictionary returned by [get_system_status].  The three counters
    are the lengths of the lists of task managers with the given status;
    ["agents"] maps each task type (by its string value, in the insertion
    order of [_agents]) to the length of its agent list. *)
Record SystemStatus := {
  status_total_cost : Q;
  status_cost_limit_reached : bool;
  active_tasks : nat;
  completed_tasks : nat;
  failed_tasks : nat;
  status_agents : list (string * nat)
}.

(** [self._tasks.values()], up to the order, which the counts below do
    not depend on. *)
Definition task_values (o : Orchestrator) : list Task.t :=
  (map_to_list (_tasks o)).*2.

(** [len([t for t in self._tasks.values() if t.status == status])] *)
Definition count_status (status : TaskStatus) (o : Orchestrator) : nat :=
  length (filter (λ t, Task.status t = status) (task_values o)).

(** [TaskType.value] *)
Definition TaskType_value (ty : TaskType) : string :=
  match ty with
  | CODE => "code"
  | DESIGN => "design"
  | MARKETING => "marketing"
  end.

(** [get_system_status] *)
Definition get_system_status (o : Orchestrator) : SystemStatus :=
  {| status_total_cost := _total_cost o;
     status_cost_limit_reached := _cost_limit_reached o;
     active_tasks := count_status IN_PROGRESS o;
     completed_tasks := count_status COMPLETED o;
     failed_tasks := count_status FAILED o;
     status_agents :=
       (λ ty, (TaskType_value ty, length (agents_of (_agents o) ty)))
         <$> [CODE; DESIGN; MARKETING] |}.

(** The response object of [model.agenerate] as [_parse_response] reads
    it: the generations (text and finish reason), the token usage and the
    model name. *)
Record LLMResponse := {
  generations : list (string * string);
  usage_total_tokens : Z;
  model_name : string
}.

(** [CodingAgent._parse_response]: the first generation becomes the code of
    a successful result; [response.generations[0]] on an empty list raises
    [IndexError], which the function turns into a failure result.  The cost
    of the result is never given and keeps its default. *)
Definition _parse_response (response : LLMResponse) : AgentResult.t :=
  match generations response with
  | (text, finish_reason) :: _ =>
      AgentResult.mk true
        [("code", text);
         ("explanation", "Generated code based on requirements")]
        None (usage_total_tokens response) 0%Q
        [("model_name", model_name response);
         ("finish_reason", finish_reason)]
  | [] =>
      AgentResult.failure
        "Failed to parse response: list index out of range"
  end.

(** What [CodingAgent.execute_task] gets out of a response: the parsed
    result and the usage it tracks. *)
Definition coding_reply (response : LLMResponse) : ModelReply :=
  ModelResponse (_parse_response response) (usage_total_tokens response).

(** An event whose model reply, if it is a response, went through
    [CodingAgent._parse_response]. *)
Definition parsed_by_coding_agent (e : Event) : Prop :=
  match e with
  | ModelDone _ (ModelResponse result tokens) =>
      ∃ response, ModelResponse result tokens = coding_reply response
  | _ => True
  end.

(** ** Writes to tasks and agents *)

(** The writes the orchestrator performs on a task manager: a failure
    ([update_status(FAILED)] and the error), the start of the execution,
    the admission of the cost, the completion. *)
Inductive TaskWrite :=
| WriteFailed (msg : option string)
| WriteStarted
| WriteCharged (cost : Q)
| WriteCompleted (result : AgentResult.t).

Definition apply_write (w : TaskWrite) (t : Task.t) : Task.t :=
  match w with
  | WriteFailed msg => Task.set_error msg (Task.update_status FAILED None t)
  | WriteStarted => Task.update_status IN_PROGRESS (Some 0.2%Q) t
  | WriteCharged c =>
      Task.update_status VERIFYING (Some 0.8%Q) (Task.set_cost c t)
  | WriteCompleted r =>
      Task.set_result (Some r) (Task.update_status COMPLETED (Some 1%Q) t)
  end.

(** What a write adds to the ledger. *)
Definition charge_of (w : TaskWrite) : Q :=
  match w with WriteCharged c => c | _ => 0%Q end.

(** The coroutine moves that go with a write. *)
Definition write_move (c : Coroutine) (w : TaskWrite) (c' : Coroutine)
    : Prop :=
  match c, w, c' with
  | Scheduled, WriteStarted, AwaitModel _ => True
  | Scheduled, WriteFailed _, Returned => True
  | AwaitModel _, WriteFailed _, Returned => True
  | AwaitModel r, WriteCharged _, AwaitVerifier r' _ => r' = r
  | AwaitVerifier _ _, WriteFailed _, Returned => True
  | AwaitVerifier _ result, WriteCompleted result', Returned =>
      result' = result
  | _, _, _ => False
  end.

(** What one event does to the registry, the ledger and the coroutines. *)
Inductive task_effect (s s' : System) : Prop :=
| teff_submit tid ty p :
    task_of (orch s) tid = None →
    _tasks (orch s') = <[tid := Task.init tid ty p]> (_tasks (orch s)) →
    _total_cost (orch s') = _total_cost (orch s) →
    coros s' = <[tid := Scheduled]> (coros s) →
    task_effect s s'
| teff_none :
    _tasks (orch s') = _tasks (orch s) →
    _total_cost (orch s') = _total_cost (orch s) →
    (coros s' = coros s ∨
     ∃ tid, coros s !! tid = Some Scheduled ∧
            task_of (orch s) tid = None ∧
            coros s' = <[tid := Returned]> (coros s)) →
    task_effect s s'
| teff_cancel tid t :
    task_of (orch s) tid = Some t →
    Task.is_terminal (Task.status t) = false →
    _tasks (orch s')
    = alter (apply_write (WriteFailed (Some "Task cancelled by user"))) tid
        (_tasks (orch s)) →
    _total_cost (orch s') = _total_cost (orch s) →
    coros s' = coros s →
    task_effect s s'
| teff_write tid w c c' :
    coros s !! tid = Some c →
    write_move c w c' →
    _tasks (orch s') = alter (apply_write w) tid (_tasks (orch s)) →
    _total_cost (orch s')
    = match w with
      | WriteCharged cost => (_total_cost (orch s) + cost)%Q
      | _ => _total_cost (orch s)
      end →
    coros s' = <[tid := c']> (coros s) →
    task_effect s s'.

(** The progress written before a coroutine reaches a given point. *)
Definition stage_progress (c : Coroutine) (p : Q) : Prop :=
  match c with
  | Scheduled => p = 0%Q
  | AwaitModel _ => p = 0.2%Q
  | AwaitVerifier _ _ => p = 0.8%Q
  | Returned => True
  end.

(** Every coroutine has its task, with the progress of its stage, and no
    cost yet while the execution has not delivered. *)
Definition coroutines_on_track (s : System) : Prop :=
  ∀ tid c, coros s !! tid = Some c →
    ∃ t, task_of (orch s) tid = Some t ∧
         stage_progress c (Task.progress t) ∧
         match c with
         | Scheduled | AwaitModel _ => Task.cost t = 0%Q
         | _ => True
         end.

(** What may change on an agent while the system runs: not its identity,
    and its count of completed tasks only upwards. *)
Definition agent_evolves (a a' : Agent.t) : Prop :=
  Agent.agent_id a' = Agent.agent_id a ∧
  Agent.agent_type a' = Agent.agent_type a ∧
  (Agent.total_tasks_completed a <= Agent.total_tasks_completed a')%Z.

(** How many model responses a lifecycle fed with [reply] delivers to
    [cleanup_task]. *)
Definition responses_in (reply : ModelReply) : Z :=
  match reply with
  | ModelRaised _ => 0%Z
  | ModelResponse _ _ => 1%Z
  end.

(** What a task contributes to the count of the tasks in [status]. *)
Definition counted (status : TaskStatus) (t : Task.t) : nat :=
  if decide (Task.status t = status) then 1%nat else 0%nat.

(** Schedules for the further properties. *)
Definition rest_of_A : list Event :=
  [Start "t1";
   ModelDone "t1" (ModelResponse (code_result 2) 10);
   VerifierDone "t1" (VerifierSaid true 5)].

Definition a_response : LLMResponse :=
  {| generations := [("print(1)", "stop")];
     usage_total_tokens := 10;
     model_name := "gpt-4" |}.

Definition schedule_parsed : list Event :=
  [Submit "t1" CODE MEDIUM; Start "t1";
   ModelDone "t1" (coding_reply a_response);
   VerifierDone "t1" (VerifierSaid true 5)].

(** Every coroutine has its task, and the task of a coroutine that has
    returned is Completed or Failed. *)
Definition coroutines_settled (s : System) : Prop :=
  ∀ tid c, coros s !! tid = Some c →
    ∃ t, task_of (orch s) tid = Some t ∧
         (c = Returned → Task.is_terminal (Task.status t) = true).

(** [Orchestrator.initialize], with the outcome of each agent's own
    [initialize]: the answers of [_create_agent] are not looked at and the
    function returns [True]. *)
Definition initialize_with (o : Orchestrator)
    (code_ok design_ok marketing_ok : bool) : Orchestrator * bool :=
  let o := (_create_agent o CODE "coding-agent-1" code_ok).1 in
  let o := (_create_agent o DESIGN "design-agent-1" design_ok).1 in
  let o := (_create_agent o MARKETING "marketing-agent-1" marketing_ok).1 in
  (o, true).

(** The outcome of an agent's [initialize] for each type. *)
Definition initialized_ok (code_ok design_ok marketing_ok : bool)
    (ty : TaskType) : bool :=
  match ty with
  | CODE => code_ok
  | DESIGN => design_ok
  | MARKETING => marketing_ok
  end.

(** The identifier [initialize] gives to the agent of each type. *)
Definition first_agent_id (ty : TaskType) : string :=
  match ty with
  | CODE => "coding-agent-1"
  | DESIGN => "design-agent-1"
  | MARKETING => "marketing-agent-1"
  end.

(** A lifecycle is past its cost step once it waits for the verifier or
    has returned. *)
Definition past_cost_step (s : System) (tid : string) : Prop :=
  ∃ c, coros s !! tid = Some c ∧
       match c with
       | AwaitVerifier _ _ | Returned => True
       | _ => False
       end.

(** A step that leaves the ledger and the cost of every task alone. *)
Definition costs_kept (s s' : System) : Prop :=
  _total_cost (orch s') = _total_cost (orch s) ∧
  ∀ tid u, task_of (orch s) tid = Some u →
    ∃ u', task_of (orch s') tid = Some u' ∧ Task.cost u' = Task.cost u.

(** A step that charges: the amount added to the ledger is written as the
    cost of one task, whose cost was still 0, and of no other. *)
Definition cost_step (s s' : System) : Prop :=
  ∃ tid t c,
    task_of (orch s) tid = Some t ∧
    Task.cost t = 0%Q ∧
    _total_cost (orch s') = (_total_cost (orch s) + c)%Q ∧
    (∃ t', task_of (orch s') tid = Some t' ∧ Task.cost t' = c) ∧
    ∀ tid' u, tid ≠ tid' → task_of (orch s) tid' = Some u →
      ∃ u', task_of (orch s') tid' = Some u' ∧ Task.cost u' = Task.cost u.


(** * Basic facts *)

Section Comparison.

Lemma Qgtb_false (a b : Q) : Qgtb a b = false ↔ (a <= b)%Q.
Proof.
  unfold Qgtb. rewrite negb_false_iff. apply Qle_bool_iff.
Qed.

Lemma Qgtb_true (a b : Q) : Qgtb a b = true ↔ (b < a)%Q.
Proof.
  unfold Qgtb. rewrite negb_true_iff. split.
  - intros H. apply Qnot_le_lt. intros Hle.
    apply Qle_bool_iff in Hle. congruence.
  - intros H. destruct (Qle_bool a b) eqn:E; [|done].
    apply Qle_bool_iff in E. exfalso. eapply Qlt_not_le; eauto.
Qed.

End Comparison.

Section Store.

Implicit Types (o : Orchestrator) (p : AgentPool) (ty : TaskType).

Lemma agents_of_with_agents p ty ty' l :
  agents_of (with_agents p ty l) ty'
  = if decide (ty = ty') then l else agents_of p ty'.
Proof. by destruct ty, ty', p. Qed.

Lemma agents_of_with_agents_eq p ty l :
  agents_of (with_agents p ty l) ty = l.
Proof. by destruct ty, p. Qed.

Lemma agents_of_with_agents_ne p ty ty' l :
  ty ≠ ty' → agents_of (with_agents p ty l) ty' = agents_of p ty'.
Proof. by destruct ty, ty', p. Qed.

Lemma agent_at_modify_eq o r f :
  agent_at (modify_agent r f o) r = f <$> agent_at o r.
Proof.
  unfold agent_at, modify_agent. simpl.
  rewrite agents_of_with_agents_eq. apply list_lookup_alter_eq.
Qed.

Lemma agent_at_modify_ne o r r' f :
  r ≠ r' → agent_at (modify_agent r f o) r' = agent_at o r'.
Proof.
  destruct r as [ty i], r' as [ty' j]. intros Hne.
  unfold agent_at, modify_agent. simpl.
  rewrite agents_of_with_agents. case_decide as Hty; [|done].
  subst ty'. apply list_lookup_alter_ne. congruence.
Qed.

Lemma agent_at_modify_task o tid f r :
  agent_at (modify_task tid f o) r = agent_at o r.
Proof. done. Qed.

Lemma task_of_modify_eq o tid f :
  task_of (modify_task tid f o) tid = f <$> task_of o tid.
Proof. unfold task_of, modify_task. simpl. apply lookup_alter_eq. Qed.

Lemma task_of_modify_ne o tid tid' f :
  tid ≠ tid' → task_of (modify_task tid f o) tid' = task_of o tid'.
Proof.
  intros. unfold task_of, modify_task. simpl. by apply lookup_alter_ne.
Qed.

Lemma task_of_fail_eq o tid msg :
  task_of (fail_task tid msg o) tid
  = (λ t, Task.set_error msg (Task.update_status FAILED None t))
      <$> task_of o tid.
Proof. apply task_of_modify_eq. Qed.

End Store.

(** The loop of [_get_available_agent] finds an idle agent, and the first
    one. *)
Section Selection.

Lemma first_idle_Some l i j a :
  first_idle l i = Some (j, a) →
  ∃ k, j = (i + k)%nat ∧ l !! k = Some a ∧ Agent.status a = IDLE ∧
       ∀ k' a', (k' < k)%nat → l !! k' = Some a' → Agent.status a' ≠ IDLE.
Proof.
  revert i. induction l as [|b l IH]; intros i; simpl; [done|].
  case_decide as Hb.
  - intros [= <- <-]. exists 0%nat. repeat split; [lia|done|].
    intros k' a' Hk. lia.
  - intros H. destruct (IH _ H) as (k & -> & Hk & Ha & Hmin).
    exists (S k). repeat split; [lia|done|done|].
    intros [|k'] a' Hlt; simpl.
    + by intros [= <-].
    + apply Hmin. lia.
Qed.

Lemma first_idle_None l i :
  first_idle l i = None ↔ ∀ a, a ∈ l → Agent.status a ≠ IDLE.
Proof.
  revert i. induction l as [|b l IH]; intros i; simpl.
  - split; [|done]. intros _ a Ha. by apply elem_of_nil in Ha.
  - case_decide as Hb.
    + split; [done|]. intros H. exfalso. apply (H b); [left|done].
    + rewrite IH. split.
      * intros H a [->|Ha]%elem_of_cons; auto.
      * intros H a Ha. apply H. by right.
Qed.

Lemma get_available_agent_Some o ty r a :
  _get_available_agent o ty = Some (r, a) →
  r.1 = ty ∧ agent_at o r = Some a ∧ Agent.status a = IDLE ∧
  ∀ k a', (k < r.2)%nat → agent_at o (ty, k) = Some a' →
          Agent.status a' ≠ IDLE.
Proof.
  unfold _get_available_agent, agent_at.
  destruct (first_idle _ 0) as [[j b]|] eqn:E; [|done].
  intros [= <- <-]. simpl.
  destruct (first_idle_Some _ _ _ _ E) as (k & -> & Hk & Hb & Hmin).
  auto.
Qed.

Lemma get_available_agent_None o ty :
  _get_available_agent o ty = None ↔
  ∀ k a, agent_at o (ty, k) = Some a → Agent.status a ≠ IDLE.
Proof.
  unfold _get_available_agent, agent_at. simpl.
  rewrite fmap_None, first_idle_None. split.
  - intros H k a Hk. apply H. by eapply list_elem_of_lookup_2.
  - intros H a [k Hk]%list_elem_of_lookup_1. eauto.
Qed.

Lemma prepare_task_idle a tid :
  Agent.status a = IDLE →
  Agent.prepare_task a tid
  = (Agent._update_status (Agent.set_current_task_id a (Some tid)) BUSY,
     true).
Proof. intros H. unfold Agent.prepare_task. by rewrite decide_True. Qed.

End Selection.

(** * One lifecycle *)

Section Lifecycle.

Variable settings : Settings.
Implicit Types (o : Orchestrator) (r : AgentRef) (a : Agent.t).

Lemma process_start_dispatch o tid task r a :
  task_of o tid = Some task →
  _get_available_agent o (Task.type task) = Some (r, a) →
  process_start settings o tid
  = Return (modify_agent r (λ _, busy_with tid a)
              (modify_task tid
                 (Task.update_status IN_PROGRESS (Some 0.2%Q)) o),
            AwaitModel r).
Proof.
  intros Ht Hsel. unfold process_start. unfold task_of in Ht.
  rewrite Ht, Hsel.
  apply get_available_agent_Some in Hsel as (_ & _ & Hidle & _).
  by rewrite prepare_task_idle.
Qed.

Lemma process_start_no_agent o tid task :
  task_of o tid = Some task →
  _get_available_agent o (Task.type task) = None →
  process_start settings o tid
  = Return (fail_task tid (Some "No available agent found") o, Returned).
Proof.
  intros Ht Hsel. unfold process_start. unfold task_of in Ht.
  by rewrite Ht, Hsel.
Qed.

Lemma check_cost_limit_pass o c :
  (_total_cost o + c <= COST_LIMIT settings)%Q →
  _check_cost_limit settings o c = (o, true).
Proof.
  intros H. unfold _check_cost_limit.
  by rewrite (proj2 (Qgtb_false _ _) H).
Qed.

Lemma check_cost_limit_reject o c :
  (COST_LIMIT settings < _total_cost o + c)%Q →
  ∃ o', _check_cost_limit settings o c = (o', false) ∧
        _agents o' = _agents o ∧ _tasks o' = _tasks o ∧
        _total_cost o' = _total_cost o ∧ _cost_limit_reached o' = true.
Proof.
  intros H. unfold _check_cost_limit.
  rewrite (proj2 (Qgtb_true _ _) H).
  destruct (_cost_limit_reached o) eqn:E; simpl; eauto 10.
Qed.

(** The run of a lifecycle whose execution succeeded and whose cost was
    admitted, up to the suspension inside [validate_result]. *)
Lemma lifecycle_to_verifier o tid task r a result tokens verdict :
  task_of o tid = Some task →
  _get_available_agent o (Task.type task) = Some (r, a) →
  AgentResult.success result = true →
  (_total_cost o + AgentResult.cost result <= COST_LIMIT settings)%Q →
  ∃ o1, _process_task settings o tid (ModelResponse result tokens) verdict
        = Return (process_verifier o1 tid r result verdict).1 ∧
        _total_cost o1 = (_total_cost o + AgentResult.cost result)%Q ∧
        _cost_limit_reached o1 = _cost_limit_reached o ∧
        task_of o1 tid
        = Some (Task.update_status VERIFYING (Some 0.8%Q)
                  (Task.set_cost (AgentResult.cost result)
                     (Task.update_status IN_PROGRESS (Some 0.2%Q) task))) ∧
        agent_at o1 r
        = Some (Agent.cleanup_task
                  (Agent._track_usage tokens
                     (Agent._calculate_cost tokens false)
                     (busy_with tid a))).
Proof.
  intros Ht Hsel Hok Hfit. unfold _process_task.
  rewrite (process_start_dispatch _ _ _ _ _ Ht Hsel).
  unfold process_model, execute_task_resume, after_execute.
  rewrite Hok. rewrite check_cost_limit_pass by done.
  eexists. split; [reflexivity|]. split; [done|]. split; [done|].
  apply get_available_agent_Some in Hsel as (_ & Ha & _).
  split.
  - unfold task_of in *. simpl. rewrite !lookup_alter_eq, Ht. done.
  - change (agent_at (modify_agent r ?f (modify_agent r ?g ?o')) r)
      with (agent_at (modify_agent r f (modify_agent r g o')) r).
    unfold set_total_cost, modify_task, agent_at, modify_agent in *.
    simpl in *. rewrite !agents_of_with_agents_eq.
    rewrite !list_lookup_alter_eq, Ha. done.
Qed.

(** C8. A lifecycle whose agent execution succeeds with cost [c], whose
    cost is admitted ([total + c <= limit]) and whose validation answers
    true ends with the task Completed at progress 1.0, its result set to
    the execution result, its cost equal to [c], and the ledger total
    increased by exactly [c]. *)
Theorem C8_success_path o tid task r a result tokens vtokens :
  task_of o tid = Some task →
  _get_available_agent o (Task.type task) = Some (r, a) →
  AgentResult.success result = true →
  (_total_cost o + AgentResult.cost result <= COST_LIMIT settings)%Q →
  ∃ o' task',
    _process_task settings o tid
      (ModelResponse result tokens) (VerifierSaid true vtokens)
    = Return o' ∧
    task_of o' tid = Some task' ∧
    Task.status task' = COMPLETED ∧
    Task.progress task' = 1%Q ∧
    Task.result task' = Some result ∧
    Task.cost task' = AgentResult.cost result ∧
    _total_cost o' = (_total_cost o + AgentResult.cost result)%Q.
Proof.
  intros Ht Hsel Hok Hfit.
  destruct (lifecycle_to_verifier o tid task r a result tokens
              (VerifierSaid true vtokens) Ht Hsel Hok Hfit)
    as (o1 & -> & Htot & _ & Ht1 & _).
  eexists _, _. split; [reflexivity|].
  unfold process_verifier, validate_result_resume. simpl.
  unfold task_of in *. simpl. rewrite !lookup_alter_eq, Ht1. simpl.
  split; [reflexivity|]. by simpl.
Qed.

(** C9. When the lifecycle reaches verification and [validate_result]
    answers false or raises inside (the agent catches the exception and
    answers false), the task ends Failed with the validation-failure
    reason; its cost stays the executed cost and the ledger keeps the
    charge. *)
Theorem C9_validation_failure o tid task r a result tokens verdict :
  task_of o tid = Some task →
  _get_available_agent o (Task.type task) = Some (r, a) →
  AgentResult.success result = true →
  (_total_cost o + AgentResult.cost result <= COST_LIMIT settings)%Q →
  (∀ vtokens, verdict ≠ VerifierSaid true vtokens) →
  ∃ o' task',
    _process_task settings o tid (ModelResponse result tokens) verdict
    = Return o' ∧
    task_of o' tid = Some task' ∧
    Task.status task' = FAILED ∧
    Task.error task' = Some "Result validation failed" ∧
    Task.result task' = Task.result task ∧
    Task.cost task' = AgentResult.cost result ∧
    _total_cost o' = (_total_cost o + AgentResult.cost result)%Q.
Proof.
  intros Ht Hsel Hok Hfit Hbad.
  destruct (lifecycle_to_verifier o tid task r a result tokens
              verdict Ht Hsel Hok Hfit)
    as (o1 & -> & Htot & _ & Ht1 & _).
  assert ((validate_result_resume o1 r verdict).2 = false) as Hv.
  { destruct verdict as [msg|[] vt]; simpl; try done.
    by destruct (Hbad vt). }
  unfold process_verifier.
  destruct (validate_result_resume o1 r verdict) as [o2 v] eqn:E.
  simpl in Hv. subst v. simpl.
  assert (_tasks o2 = _tasks o1 ∧ _total_cost o2 = _total_cost o1)
    as [Htasks Htot2].
  { destruct verdict; simpl in E; by injection E as <-. }
  eexists _, _. split; [reflexivity|].
  unfold task_of in *. simpl. rewrite lookup_alter_eq, Htasks, Ht1. simpl.
  split; [reflexivity|]. simpl. by rewrite Htot2.
Qed.

End Lifecycle.

(** Scenario A: cost 2.0 under limit 5.0 from total 0 yields Completed with
    task cost 2.0 and ledger total 2.0. *)
Lemma C8_scenario_A :
  ∃ o' task',
    _process_task limit_5 (submit_task ready "t1" CODE MEDIUM) "t1"
      (ModelResponse (code_result 2) 10) (VerifierSaid true 5)
    = Return o' ∧
    task_of o' "t1" = Some task' ∧
    Task.status task' = COMPLETED ∧
    Task.progress task' = 1%Q ∧
    Task.result task' = Some (code_result 2) ∧
    Task.cost task' = 2%Q ∧
    _total_cost o' = (0 + 2)%Q.
Proof.
  apply (C8_success_path limit_5 (submit_task ready "t1" CODE MEDIUM) "t1"
           (Task.init "t1" CODE MEDIUM) the_coding_agent
           (Agent.init "coding-agent-1" CODING) (code_result 2) 10 5).
  - reflexivity.
  - reflexivity.
  - reflexivity.
  - vm_compute. discriminate.
Defined.

(** Scenario E: validation answers false after a charge of 2.0. *)
Lemma C9_scenario_E :
  ∃ o' task',
    _process_task limit_5 (submit_task ready "t1" CODE MEDIUM) "t1"
      (ModelResponse (code_result 2) 10) (VerifierSaid false 5)
    = Return o' ∧
    task_of o' "t1" = Some task' ∧
    Task.status task' = FAILED ∧
    Task.error task' = Some "Result validation failed" ∧
    Task.result task' = None ∧
    Task.cost task' = 2%Q ∧
    _total_cost o' = (0 + 2)%Q.
Proof.
  apply (C9_validation_failure limit_5
           (submit_task ready "t1" CODE MEDIUM) "t1"
           (Task.init "t1" CODE MEDIUM) the_coding_agent
           (Agent.init "coding-agent-1" CODING) (code_result 2) 10
           (VerifierSaid false 5)).
  - reflexivity.
  - reflexivity.
  - reflexivity.
  - vm_compute. discriminate.
  - intros vtokens. discriminate.
Defined.

(** * Status queries and cancellation *)

Section Registry.

Implicit Types (o : Orchestrator) (tid : string).

(** C7, as the code has it.  For an identifier that is not in the task
    registry, [get_task_status] raises [ValueError("Task not found")],
    whereas [cancel_task] raises nothing: it returns [False] and leaves the
    orchestrator as it was. *)
Theorem C7_unknown_id o tid :
  task_of o tid = None →
  get_task_status o tid = Raise (ValueError "Task not found") ∧
  cancel_task o tid = Return (o, false).
Proof.
  unfold task_of, get_task_status, cancel_task. by intros ->.
Qed.

End Registry.

Lemma C7_unknown_id_witness :
  get_task_status ready "no-such-task" = Raise (ValueError "Task not found") ∧
  cancel_task ready "no-such-task" = Return (ready, false).
Proof. apply (C7_unknown_id ready "no-such-task"). reflexivity. Defined.

(** C7 fails for [cancel_task]: on an unknown identifier it returns a
    boolean and raises no error. *)
Lemma C7_cancel_unknown_is_silent :
  task_of ready "no-such-task" = None ∧
  cancel_task ready "no-such-task" = Return (ready, false) ∧
  ¬ (∃ e, cancel_task ready "no-such-task" = Raise e).
Proof.
  split; [reflexivity|]. split; [reflexivity|]. intros [e He]. discriminate.
Qed.

(** C1 fails on the code (Scenario D): a task cancelled before its
    lifecycle starts is Failed, and the lifecycle that runs afterwards
    rewrites its status, ending in Completed with a result; and
    [update_status] applies the edge Completed -> InProgress, which the
    state machine does not have. *)
Lemma C1_lifecycle_overwrites_cancel :
  ∃ o1 t1 o2 t2,
    cancel_task (submit_task ready "t1" CODE MEDIUM) "t1" = Return (o1, true) ∧
    task_of o1 "t1" = Some t1 ∧
    Task.status t1 = FAILED ∧
    Task.result t1 = None ∧
    _process_task limit_5 o1 "t1"
      (ModelResponse (code_result 0) 10) (VerifierSaid true 5) = Return o2 ∧
    task_of o2 "t1" = Some t2 ∧
    Task.status t2 = COMPLETED ∧
    Task.result t2 = Some (code_result 0) ∧
    spec_edge COMPLETED IN_PROGRESS = false ∧
    Task.status (Task.update_status IN_PROGRESS None t2) = IN_PROGRESS.
Proof.
  eexists _, _, _, _.
  split; [reflexivity|]. split; [reflexivity|].
  split; [reflexivity|]. split; [reflexivity|].
  split; [vm_compute; reflexivity|].
  split; [reflexivity|]. repeat split.
Qed.

(** * The cost ledger *)

Section Ledger.

Variable settings : Settings.

Lemma after_execute_total o tid r result o' c :
  after_execute settings o tid r result = (o', c) →
  _total_cost o' = _total_cost o ∨
  (AgentResult.success result = true ∧
   (_total_cost o + AgentResult.cost result <= COST_LIMIT settings)%Q ∧
   _total_cost o' = (_total_cost o + AgentResult.cost result)%Q).
Proof.
  unfold after_execute, _check_cost_limit.
  destruct (AgentResult.success result); [|intros [= <- _]; by left].
  destruct (Qgtb _ _) eqn:E.
  - destruct (_cost_limit_reached o); intros [= <- _]; by left.
  - apply Qgtb_false in E. intros [= <- _]. right. by simpl.
Qed.

Lemma process_start_total o tid o' c :
  process_start settings o tid = Return (o', c) →
  _total_cost o' = _total_cost o.
Proof.
  unfold process_start.
  destruct (_tasks o !! tid) as [task|]; [|done].
  destruct (_get_available_agent o (Task.type task)) as [[r a]|];
    [|by intros [= <- _]].
  destruct (Agent.prepare_task a tid) as [a' []]; by intros [= <- _].
Qed.

Lemma execute_task_resume_total o r reply :
  _total_cost (execute_task_resume o r reply).1 = _total_cost o.
Proof. by destruct reply. Qed.

Lemma process_verifier_total o tid r result verdict :
  _total_cost (process_verifier o tid r result verdict).1 = _total_cost o.
Proof. unfold process_verifier. by destruct verdict as [?|[] ?]. Qed.

Lemma cancel_task_total o tid o' b :
  cancel_task o tid = Return (o', b) → _total_cost o' = _total_cost o.
Proof.
  unfold cancel_task. destruct (_tasks o !! tid) as [task|].
  - destruct (Task.is_terminal _); by intros [= <- _].
  - by intros [= <- _].
Qed.

(** The ledger changes in one kind of step only. *)
Lemma step_total s e s' :
  step settings s e = Some s' →
  _total_cost (orch s') = _total_cost (orch s) ∨ reserve_step settings s e s'.
Proof.
  destruct e as [tid ty p|tid|tid|tid reply|tid verdict]; simpl.
  - destruct (_tasks (orch s) !! tid); [done|]. intros [= <-]. by left.
  - destruct (cancel_task (orch s) tid) as [[o b]|] eqn:E; [|done].
    intros [= <-]. left. by eapply cancel_task_total.
  - destruct (coros s !! tid) as [[]|]; try done.
    destruct (process_start settings (orch s) tid) as [[o c]|] eqn:E;
      intros [= <-]; left; [|done].
    by eapply process_start_total.
  - destruct (coros s !! tid) as [[| r | |]|]; try done.
    destruct (process_model settings (orch s) tid r reply) as [o c] eqn:E.
    intros [= <-]. simpl. unfold process_model in E.
    destruct (execute_task_resume (orch s) r reply) as [o1 result] eqn:E1.
    pose proof (execute_task_resume_total (orch s) r reply) as Ht.
    rewrite E1 in Ht. simpl in Ht.
    apply after_execute_total in E as [E|(Hok & Hfit & E)].
    + left. congruence.
    + right. destruct reply as [msg|res tokens]; simpl in E1.
      * injection E1 as <- <-. done.
      * injection E1 as <- <-. exists tid, res, tokens.
        rewrite <- Ht. done.
  - destruct (coros s !! tid) as [[| | r result |]|]; try done.
    pose proof (process_verifier_total (orch s) tid r result verdict) as Ht.
    destruct (process_verifier (orch s) tid r result verdict) as [o c].
    intros [= <-]. by left.
Qed.


(** The limit flag is only ever raised. *)
Lemma after_execute_flag o tid r result :
  _cost_limit_reached o = true →
  _cost_limit_reached (after_execute settings o tid r result).1 = true.
Proof.
  intros Hflag. unfold after_execute, _check_cost_limit.
  destruct (AgentResult.success result); [|done].
  destruct (Qgtb _ _); [|done]. by rewrite Hflag.
Qed.

Lemma step_flag s e s' :
  _cost_limit_reached (orch s) = true →
  step settings s e = Some s' →
  _cost_limit_reached (orch s') = true.
Proof.
  intros Hflag.
  destruct e as [tid ty p|tid|tid|tid reply|tid verdict]; simpl.
  - destruct (_tasks (orch s) !! tid); [done|]. by intros [= <-].
  - unfold cancel_task. destruct (_tasks (orch s) !! tid) as [t|].
    + destruct (Task.is_terminal _); by intros [= <-].
    + by intros [= <-].
  - destruct (coros s !! tid) as [[]|]; try done.
    unfold process_start.
    destruct (_tasks (orch s) !! tid) as [task|]; [|by intros [= <-]].
    destruct (_get_available_agent _ _) as [[r a]|]; [|by intros [= <-]].
    destruct (Agent.prepare_task a tid) as [a' []]; by intros [= <-].
  - destruct (coros s !! tid) as [[| r | |]|]; try done.
    unfold process_model.
    destruct (execute_task_resume (orch s) r reply) as [o1 result] eqn:E1.
    assert (_cost_limit_reached o1 = true) as Hflag1.
    { destruct reply; simpl in E1; by injection E1 as <- _. }
    pose proof (after_execute_flag o1 tid r result Hflag1) as H.
    destruct (after_execute settings o1 tid r result) as [o c].
    by intros [= <-].
  - destruct (coros s !! tid) as [[| | r result |]|]; try done.
    unfold process_verifier, validate_result_resume.
    destruct verdict as [msg|[] tokens]; by intros [= <-].
Qed.

(** C3. A lifecycle whose agent execution succeeds with a cost [c] such
    that [total + c > limit] is rejected: the ledger total is unchanged,
    the limit flag is set (and no later event clears it), the task ends
    Failed with the cost-limit reason and its cost field is not written, so
    that it keeps the 0 it was created with. *)
Theorem C3_cost_rejection o tid task r a result tokens verdict :
  task_of o tid = Some task →
  _get_available_agent o (Task.type task) = Some (r, a) →
  AgentResult.success result = true →
  (COST_LIMIT settings < _total_cost o + AgentResult.cost result)%Q →
  (∃ o' task',
     _process_task settings o tid (ModelResponse result tokens) verdict
     = Return o' ∧
     _total_cost o' = _total_cost o ∧
     _cost_limit_reached o' = true ∧
     task_of o' tid = Some task' ∧
     Task.status task' = FAILED ∧
     Task.error task' = Some "Cost limit reached" ∧
     Task.result task' = Task.result task ∧
     Task.cost task' = Task.cost task) ∧
  (∀ s events s',
     _cost_limit_reached (orch s) = true →
     run settings s events = Some s' →
     _cost_limit_reached (orch s') = true) ∧
  (∀ task_id task_type priority,
     Task.cost (Task.init task_id task_type priority) = 0%Q).
Proof.
  intros Ht Hsel Hok Hover. split_and!; [| |done].
  - unfold _process_task.
    rewrite (process_start_dispatch _ _ _ _ _ _ Ht Hsel).
    unfold process_model, execute_task_resume, after_execute.
    rewrite Hok.
    match goal with |- context [_check_cost_limit settings ?o1 ?c] =>
      destruct (check_cost_limit_reject settings o1 c Hover)
        as (o2 & -> & _ & Htasks & Htot & Hflag)
    end.
    eexists _, _. split; [reflexivity|].
    unfold task_of in *. simpl. rewrite lookup_alter_eq, Htasks. simpl.
    rewrite lookup_alter_eq, Ht. simpl.
    repeat split; done.
  - intros s events. revert s.
    induction events as [|e events IH]; intros s s' Hflag; simpl.
    + by intros [= <-].
    + destruct (step settings s e) as [s1|] eqn:E; [|done].
      apply IH. by eapply step_flag.
Qed.

End Ledger.

(** Scenario B: total 4.5, limit 5.0, reported cost 1.0. *)
Lemma C3_scenario_B :
  ∃ o' task',
    _process_task limit_5 nearly_spent "t1"
      (ModelResponse (code_result 1) 10) (VerifierSaid true 5)
    = Return o' ∧
    _total_cost o' = 4.5%Q ∧
    _cost_limit_reached o' = true ∧
    task_of o' "t1" = Some task' ∧
    Task.status task' = FAILED ∧
    Task.error task' = Some "Cost limit reached" ∧
    Task.result task' = None ∧
    Task.cost task' = 0%Q.
Proof.
  apply (C3_cost_rejection limit_5 nearly_spent "t1"
           (Task.init "t1" CODE MEDIUM) the_coding_agent
           (Agent.init "coding-agent-1" CODING) (code_result 1) 10
           (VerifierSaid true 5)).
  - reflexivity.
  - reflexivity.
  - reflexivity.
  - vm_compute. reflexivity.
Defined.

(** * Result and error of a task *)

Section ResultError.

Variable settings : Settings.






End ResultError.

(** * Agents in the event loop *)

Section Agents.

Variable settings : Settings.

Lemma agent_at_agents o o' r :
  _agents o' = _agents o → agent_at o' r = agent_at o r.
Proof. unfold agent_at. by intros ->. Qed.

Lemma agent_at_modify_Some o r f r' a' :
  agent_at (modify_agent r f o) r' = Some a' →
  ∃ a, agent_at o r' = Some a ∧ (a' = a ∨ (r' = r ∧ a' = f a)).
Proof.
  destruct (decide (r = r')) as [<-|Hne].
  - rewrite agent_at_modify_eq.
    destruct (agent_at o r) as [a|]; [|done]. intros [= <-]. eauto.
  - rewrite agent_at_modify_ne by done. eauto.
Qed.

Lemma cancel_task_agents o tid o' b :
  cancel_task o tid = Return (o', b) → _agents o' = _agents o.
Proof.
  unfold cancel_task. destruct (_tasks o !! tid) as [task|].
  - destruct (Task.is_terminal _); by intros [= <- _].
  - by intros [= <- _].
Qed.

Lemma step_effect s e s' :
  step settings s e = Some s' → agent_effect s s'.
Proof.
  destruct e as [tid ty p|tid|tid|tid reply|tid verdict]; simpl.
  - destruct (_tasks (orch s) !! tid); [done|]. intros [= <-].
    apply eff_quiet; [done|]. right. by exists tid, Scheduled.
  - destruct (cancel_task (orch s) tid) as [[o b]|] eqn:E; [|done].
    intros [= <-]. apply eff_quiet; [|by left].
    by eapply cancel_task_agents.
  - destruct (coros s !! tid) as [[]|] eqn:Hc; try done.
    destruct (task_of (orch s) tid) as [task|] eqn:Ht.
    + destruct (_get_available_agent (orch s) (Task.type task))
        as [[r a]|] eqn:Hsel.
      * rewrite (process_start_dispatch _ _ _ _ _ _ Ht Hsel). intros [= <-].
        apply get_available_agent_Some in Hsel as (_ & Ha & Hidle & _).
        by eapply (eff_acquire _ _ tid r a).
      * rewrite (process_start_no_agent _ _ _ _ Ht Hsel). intros [= <-].
        apply eff_quiet; [done|]. right. by exists tid, Returned.
    + unfold process_start. unfold task_of in Ht. rewrite Ht. intros [= <-].
      apply eff_quiet; [done|]. right. by exists tid, Returned.
  - destruct (coros s !! tid) as [[| r | |]|] eqn:Hc; try done.
    unfold process_model, execute_task_resume, after_execute,
      _check_cost_limit.
    destruct reply as [msg|result tokens]; simpl.
    + intros [= <-].
      eapply (eff_release _ _ tid r Agent.handle_error); eauto.
    + destruct (AgentResult.success result);
        [destruct (Qgtb _ _); [destruct (_cost_limit_reached (orch s))|]|];
        simpl; intros [= <-];
        (eapply (eff_release _ _ tid r
                   (λ a, Agent.cleanup_task
                           (Agent._track_usage tokens
                              (Agent._calculate_cost tokens false) a)));
         eauto).
  - destruct (coros s !! tid) as [[| | r result |]|] eqn:Hc; try done.
    unfold process_verifier, validate_result_resume.
    destruct verdict as [msg|[] tokens]; simpl; intros [= <-].
    + eapply (eff_validate _ _ tid r result Agent.handle_error); eauto.
    + eapply (eff_validate _ _ tid r result
                (Agent._track_usage tokens
                   (Agent._calculate_cost tokens true))); eauto.
    + eapply (eff_validate _ _ tid r result
                (Agent._track_usage tokens
                   (Agent._calculate_cost tokens true))); eauto.
Qed.

Lemma held_after_insert (cs : gmap string Coroutine) tid0 c tid r :
  (∀ r', c ≠ AwaitModel r') →
  <[tid0 := c]> cs !! tid = Some (AwaitModel r) →
  tid0 ≠ tid ∧ cs !! tid = Some (AwaitModel r).
Proof.
  intros Hc [[-> Heq]|[Hne Hold]]%lookup_insert_Some; [|done].
  by destruct (Hc r).
Qed.

Lemma effect_exclusive s s' :
  agent_effect s s' → holders_exclusive s → holders_exclusive s'.
Proof.
  intros Heff Hs tid r Hheld. unfold holders_exclusive, held_by in *.
  destruct Heff as [Hag Hco | tid0 r0 a0 Ha0 Hidle Hag Hco
                   | tid0 r0 f c Hc0 Hag Hf Hco Hc
                   | tid0 r0 res f Hc0 Hag Hf Hco].
  - assert (∀ t q, coros s' !! t = Some (AwaitModel q) →
                   coros s !! t = Some (AwaitModel q)) as Hshrink.
    { destruct Hco as [->|(tid0 & c & -> & Hc)]; [done|].
      intros t q Ht. by eapply held_after_insert. }
    destruct (Hs _ _ (Hshrink _ _ Hheld)) as [(a & Ha & Hbusy) Huniq].
    split.
    + exists a. by rewrite (agent_at_agents _ _ _ Hag).
    + intros tid' H'. apply Huniq. by apply Hshrink.
  - assert (∀ t, coros s !! t = Some (AwaitModel r0) → False) as Hfree.
    { intros t Ht. destruct (Hs _ _ Ht) as [(a & Ha & Hbusy) _]. congruence. }
    rewrite Hco in Hheld.
    apply lookup_insert_Some in Hheld as [[<- [= <-]]|[Hne Hold]].
    + split.
      * exists (busy_with tid0 a0). split; [|done].
        rewrite (agent_at_agents _ _ _ Hag), agent_at_modify_eq, Ha0. done.
      * intros tid'. rewrite Hco.
        intros [[<- _]|[_ H']]%lookup_insert_Some; [done|].
        by destruct (Hfree _ H').
    + assert (r0 ≠ r) as Hr by (intros ->; by eapply Hfree).
      destruct (Hs _ _ Hold) as [(a & Ha & Hbusy) Huniq]. split.
      * exists a. split; [|done].
        by rewrite (agent_at_agents _ _ _ Hag), agent_at_modify_ne.
      * intros tid'. rewrite Hco.
        intros [[_ [= ->]]|[_ H']]%lookup_insert_Some; [done|].
        by apply Huniq.
  - rewrite Hco in Hheld.
    apply held_after_insert in Hheld as [Hne Hold]; [|done].
    destruct (Hs _ _ Hold) as [(a & Ha & Hbusy) Huniq].
    assert (r0 ≠ r) as Hr.
    { intros ->. apply Hne. by apply Huniq. }
    split.
    + exists a. split; [|done].
      by rewrite (agent_at_agents _ _ _ Hag), agent_at_modify_ne.
    + intros tid'. rewrite Hco. intros H'.
      apply held_after_insert in H' as [_ H']; [|done]. by apply Huniq.
  - rewrite Hco in Hheld.
    apply held_after_insert in Hheld as [Hne Hold]; [|done].
    destruct (Hs _ _ Hold) as [(a & Ha & Hbusy) Huniq]. split.
    + rewrite (agent_at_agents _ _ _ Hag).
      destruct (decide (r0 = r)) as [->|Hr].
      * exists (f a). rewrite agent_at_modify_eq, Ha. split; [done|].
        destruct (Hf a) as [->| ->]; done.
      * exists a. by rewrite agent_at_modify_ne.
    + intros tid'. rewrite Hco. intros H'.
      apply held_after_insert in H' as [_ H']; [|done]. by apply Huniq.
Qed.

Lemma effect_error_stays s s' r :
  agent_effect s s' →
  agent_status (orch s) r = Some ERROR →
  ¬ held s r →
  agent_status (orch s') r = Some ERROR ∧ ¬ held s' r.
Proof.
  intros Heff Herr Hfree. unfold agent_status, held, held_by in *.
  destruct (agent_at (orch s) r) as [a|] eqn:Ha; [|done].
  injection Herr as Herr.
  destruct Heff as [Hag Hco | tid0 r0 a0 Ha0 Hidle Hag Hco
                   | tid0 r0 f c Hc0 Hag Hf Hco Hc
                   | tid0 r0 res f Hc0 Hag Hf Hco].
  - split.
    + by rewrite (agent_at_agents _ _ _ Hag), Ha, <- Herr.
    + intros [tid H']. apply Hfree. exists tid.
      destruct Hco as [Hco|(tid0 & c & Hco & Hc)]; rewrite Hco in H';
        [done|].
      by eapply held_after_insert.
  - assert (r0 ≠ r) as Hr by (intros ->; congruence). split.
    + by rewrite (agent_at_agents _ _ _ Hag), agent_at_modify_ne, Ha,
        <- Herr.
    + intros [tid H']. rewrite Hco in H'.
      apply lookup_insert_Some in H' as [[_ [= ->]]|[_ H']]; [done|].
      apply Hfree. by exists tid.
  - assert (r0 ≠ r) as Hr by (intros ->; apply Hfree; by exists tid0). split.
    + by rewrite (agent_at_agents _ _ _ Hag), agent_at_modify_ne, Ha,
        <- Herr.
    + intros [tid H']. rewrite Hco in H'.
      apply held_after_insert in H' as [_ H']; [|done].
      apply Hfree. by exists tid.
  - split.
    + rewrite (agent_at_agents _ _ _ Hag).
      destruct (decide (r0 = r)) as [->|Hr].
      * rewrite agent_at_modify_eq, Ha. simpl. f_equal.
        destruct (Hf a) as [->| ->]; done.
      * by rewrite agent_at_modify_ne, Ha, <- Herr.
    + intros [tid H']. rewrite Hco in H'.
      apply held_after_insert in H' as [_ H']; [|done].
      apply Hfree. by exists tid.
Qed.

Lemma run_exclusive s events s' :
  holders_exclusive s →
  run settings s events = Some s' →
  holders_exclusive s'.
Proof.
  revert s. induction events as [|e events IH]; intros s Hs; simpl.
  - by intros [= <-].
  - destruct (step settings s e) as [s1|] eqn:E; [|done].
    apply IH. eapply effect_exclusive; [|done]. by eapply step_effect.
Qed.

Lemma run_error_stays s events s' r :
  agent_status (orch s) r = Some ERROR →
  ¬ held s r →
  run settings s events = Some s' →
  agent_status (orch s') r = Some ERROR ∧ ¬ held s' r.
Proof.
  revert s. induction events as [|e events IH]; intros s Herr Hfree; simpl.
  - by intros [= <-].
  - destruct (step settings s e) as [s1|] eqn:E; [|done].
    apply step_effect in E.
    destruct (effect_error_stays _ _ _ E Herr Hfree). by apply IH.
Qed.

(** An agent that is not idle is not selected. *)
Lemma not_idle_not_selected o r st ty a :
  agent_status o r = Some st → st ≠ IDLE →
  _get_available_agent o ty ≠ Some (r, a).
Proof.
  intros Hst Hne Hsel.
  apply get_available_agent_Some in Hsel as (_ & Ha & Hidle & _).
  unfold agent_status in Hst. rewrite Ha in Hst. simpl in Hst. congruence.
Qed.

End Agents.

(** * Acquisition, release and quarantine of agents *)

Section Pool.

Variable settings : Settings.

(** C4. When the loop starts the lifecycle of a task, the agent it takes is
    the first idle agent of the task's category, and in that same
    uninterrupted run ([_get_available_agent] followed by [prepare_task])
    the agent becomes Busy, so that no selection made afterwards returns
    it; if the category has no idle agent the selection yields [None] and
    the pool is left as it was. *)
Theorem C4_acquire_first_idle s tid task :
  coros s !! tid = Some Scheduled →
  task_of (orch s) tid = Some task →
  match _get_available_agent (orch s) (Task.type task) with
  | Some (r, a) =>
      r.1 = Task.type task ∧
      agent_at (orch s) r = Some a ∧
      Agent.status a = IDLE ∧
      (∀ k a', (k < r.2)%nat →
         agent_at (orch s) (Task.type task, k) = Some a' →
         Agent.status a' ≠ IDLE) ∧
      ∃ s', step settings s (Start tid) = Some s' ∧
            held_by s' r tid ∧
            agent_status (orch s') r = Some BUSY ∧
            (∀ r', r' ≠ r → agent_at (orch s') r' = agent_at (orch s) r') ∧
            (∀ ty a', _get_available_agent (orch s') ty ≠ Some (r, a'))
  | None =>
      (∀ k a', agent_at (orch s) (Task.type task, k) = Some a' →
         Agent.status a' ≠ IDLE) ∧
      ∃ s', step settings s (Start tid) = Some s' ∧
            _agents (orch s') = _agents (orch s) ∧
            coros s' !! tid = Some Returned
  end.
Proof.
  intros Hc Ht.
  destruct (_get_available_agent (orch s) (Task.type task))
    as [[r a]|] eqn:Hsel.
  - destruct (get_available_agent_Some _ _ _ _ Hsel)
      as (Hty & Ha & Hidle & Hfirst).
    split_and!; try done.
    simpl. rewrite Hc, (process_start_dispatch _ _ _ _ _ _ Ht Hsel).
    eexists. split; [reflexivity|].
    assert (agent_status
              (modify_agent r (λ _, busy_with tid a)
                 (modify_task tid
                    (Task.update_status IN_PROGRESS (Some 0.2%Q)) (orch s)))
              r = Some BUSY) as Hbusy.
    { unfold agent_status. rewrite agent_at_modify_eq.
      rewrite agent_at_modify_task, Ha. done. }
    split_and!; simpl.
    + unfold held_by. simpl. apply lookup_insert_eq.
    + exact Hbusy.
    + intros r' Hne. by rewrite agent_at_modify_ne.
    + intros ty a'. by eapply not_idle_not_selected.
  - split; [by apply get_available_agent_None|].
    simpl. rewrite Hc, (process_start_no_agent _ _ _ _ Ht Hsel).
    eexists. split; [reflexivity|]. split; [done|]. simpl.
    apply lookup_insert_eq.
Qed.

Lemma lifecycle_agent_status o tid task r a reply verdict :
  task_of o tid = Some task →
  _get_available_agent o (Task.type task) = Some (r, a) →
  ∃ o', _process_task settings o tid reply verdict = Return o' ∧
        agent_status o' r
        = Some (if lifecycle_raises settings o reply verdict
                then ERROR else IDLE).
Proof.
  intros Ht Hsel. unfold _process_task.
  rewrite (process_start_dispatch _ _ _ _ _ _ Ht Hsel).
  apply get_available_agent_Some in Hsel as (_ & Ha & _).
  unfold process_model, execute_task_resume, after_execute,
    _check_cost_limit, lifecycle_raises.
  destruct reply as [msg|result tokens]; simpl.
  - eexists. split; [reflexivity|].
    unfold agent_status, agent_at in *. simpl.
    rewrite !agents_of_with_agents_eq, !list_lookup_alter_eq, Ha. done.
  - destruct (AgentResult.success result); simpl.
    + destruct (Qgtb _ _); simpl.
      * destruct (_cost_limit_reached o); simpl;
          (eexists; split; [reflexivity|]);
          unfold agent_status, agent_at in *; simpl;
          rewrite !agents_of_with_agents_eq, !list_lookup_alter_eq, Ha;
          done.
      * unfold process_verifier, validate_result_resume.
        destruct verdict as [vmsg|[] vtokens]; simpl;
          (eexists; split; [reflexivity|]);
          unfold agent_status, agent_at in *; simpl;
          rewrite !agents_of_with_agents_eq, !list_lookup_alter_eq, Ha;
          done.
    + eexists. split; [reflexivity|].
      unfold agent_status, agent_at in *. simpl.
      rewrite !agents_of_with_agents_eq, !list_lookup_alter_eq, Ha. done.
Qed.

(** The release, in any interleaving: when the model call of a lifecycle
    that holds an agent delivers, the agent becomes Idle (response) or
    Error (exception) in that same step, and the lifecycle holds it no
    more. *)
Lemma release_status s tid r a reply :
  held_by s r tid →
  agent_at (orch s) r = Some a →
  ∃ s', step settings s (ModelDone tid reply) = Some s' ∧
        agent_status (orch s') r
        = Some (match reply with
                | ModelRaised _ => ERROR
                | ModelResponse _ _ => IDLE
                end) ∧
        ¬ held_by s' r tid.
Proof.
  unfold held_by. intros Hc Ha. simpl. rewrite Hc.
  destruct (process_model settings (orch s) tid r reply) as [o c] eqn:E.
  eexists. split; [reflexivity|]. simpl.
  unfold process_model, execute_task_resume, after_execute,
    _check_cost_limit in E.
  split.
  - destruct reply as [msg|result tokens]; simpl in E.
    + injection E as <- _.
      unfold agent_status, agent_at in *. simpl.
      by rewrite agents_of_with_agents_eq, list_lookup_alter_eq, Ha.
    + destruct (AgentResult.success result);
        [destruct (Qgtb _ _); [destruct (_cost_limit_reached (orch s))|]|];
        simpl in E; injection E as <- _;
        unfold agent_status, agent_at in *; simpl;
        by rewrite agents_of_with_agents_eq, list_lookup_alter_eq, Ha.
  - rewrite lookup_insert_eq. intros [= ->].
    destruct reply as [msg|result tokens]; simpl in E.
    + by injection E.
    + destruct (AgentResult.success result);
        [destruct (Qgtb _ _); [destruct (_cost_limit_reached (orch s))|]|];
        simpl in E; by injection E.
Qed.

(** C5, as the code has it.  After a lifecycle that acquired an agent has
    run to its end with no other lifecycle in between, the agent is Idle
    when no exception was raised inside [execute_task] or
    [validate_result] (success, agent-reported failure, cost rejection,
    validation answering false), and it is in Error, not Idle, when one
    was; it is never left Busy.  In every schedule, while a lifecycle holds
    an agent (from [prepare_task] to [cleanup_task] or [handle_error]) no
    selection returns that agent and no other lifecycle holds it, and the
    step that ends the hold leaves the agent Idle or in Error. *)
Theorem C5_agent_after_lifecycle o tid task r a reply verdict :
  task_of o tid = Some task →
  _get_available_agent o (Task.type task) = Some (r, a) →
  (∃ o', _process_task settings o tid reply verdict = Return o' ∧
         agent_status o' r
         = Some (if lifecycle_raises settings o reply verdict
                 then ERROR else IDLE) ∧
         agent_status o' r ≠ Some BUSY) ∧
  (∀ s events s',
     holders_exclusive s →
     run settings s events = Some s' →
     ∀ tid' r', held_by s' r' tid' →
       (∀ ty a', _get_available_agent (orch s') ty ≠ Some (r', a')) ∧
       (∀ tid'', held_by s' r' tid'' → tid'' = tid') ∧
       (∀ reply', ∃ s'',
          step settings s' (ModelDone tid' reply') = Some s'' ∧
          agent_status (orch s'') r'
          = Some (match reply' with
                  | ModelRaised _ => ERROR
                  | ModelResponse _ _ => IDLE
                  end) ∧
          ¬ held_by s'' r' tid')).
Proof.
  intros Ht Hsel. split.
  - destruct (lifecycle_agent_status o tid task r a reply verdict Ht Hsel)
      as (o' & Hrun & Hst).
    exists o'. split; [done|]. split; [done|]. rewrite Hst.
    by destruct (lifecycle_raises _ _ _ _).
  - intros s events s' Hs Hrun tid' r' Hheld.
    destruct (run_exclusive _ _ _ _ Hs Hrun _ _ Hheld)
      as [(a' & Ha' & Hbusy) Huniq].
    split_and!; [|done|].
    + intros ty b. eapply not_idle_not_selected; [|exact Hbusy].
      unfold agent_status. by rewrite Ha'.
    + intros reply'. by eapply release_status.
Qed.

End Pool.

Section Quarantine.

Variable settings : Settings.

Lemma effect_agent_domain s s' r a' :
  agent_effect s s' →
  agent_at (orch s') r = Some a' →
  is_Some (agent_at (orch s) r).
Proof.
  intros [Hag _ | tid0 r0 a0 _ _ Hag _ | tid0 r0 f c _ Hag _ _ _
         | tid0 r0 res f _ Hag _ _];
    rewrite (agent_at_agents _ _ _ Hag); [by intros ->| | |];
    by intros (a & -> & _)%agent_at_modify_Some.
Qed.

Lemma effect_category_lost s s' ty :
  agent_effect s s' → category_lost s ty → category_lost s' ty.
Proof.
  intros Heff Hlost k a' Ha'.
  destruct (effect_agent_domain _ _ _ _ Heff Ha') as [a Ha].
  destruct (Hlost _ _ Ha) as [Herr Hfree].
  destruct (effect_error_stays s s' (ty, k) Heff) as [Hst Hfree'];
    [unfold agent_status; by rewrite Ha, <- Herr|done|].
  unfold agent_status in Hst. rewrite Ha' in Hst. by injection Hst as ->.
Qed.

Lemma run_category_lost s events s' ty :
  category_lost s ty →
  run settings s events = Some s' →
  category_lost s' ty.
Proof.
  revert s. induction events as [|e events IH]; intros s Hs; simpl.
  - by intros [= <-].
  - destruct (step settings s e) as [s1|] eqn:E; [|done].
    apply IH. eapply effect_category_lost; [|done]. by eapply step_effect.
Qed.

Lemma model_raise_sets_error s tid r a msg :
  held_by s r tid →
  agent_at (orch s) r = Some a →
  ∃ s', step settings s (ModelDone tid (ModelRaised msg)) = Some s' ∧
        agent_status (orch s') r = Some ERROR.
Proof.
  unfold held_by. intros Hc Ha. simpl. rewrite Hc.
  eexists. split; [reflexivity|]. simpl.
  unfold agent_status, agent_at in *. simpl.
  by rewrite agents_of_with_agents_eq, list_lookup_alter_eq, Ha.
Qed.

Lemma verifier_raise_sets_error s tid r result a msg :
  coros s !! tid = Some (AwaitVerifier r result) →
  agent_at (orch s) r = Some a →
  ∃ s', step settings s (VerifierDone tid (VerifierRaised msg)) = Some s' ∧
        agent_status (orch s') r = Some ERROR.
Proof.
  intros Hc Ha. simpl. rewrite Hc.
  eexists. split; [reflexivity|]. simpl.
  unfold agent_status, agent_at in *. simpl.
  by rewrite agents_of_with_agents_eq, list_lookup_alter_eq, Ha.
Qed.

Lemma lost_category_rejects s ty tid task :
  category_lost s ty →
  coros s !! tid = Some Scheduled →
  task_of (orch s) tid = Some task →
  Task.type task = ty →
  ∃ s' task',
    step settings s (Start tid) = Some s' ∧
    coros s' !! tid = Some Returned ∧
    task_of (orch s') tid = Some task' ∧
    Task.status task' = FAILED ∧
    Task.error task' = Some "No available agent found".
Proof.
  intros Hlost Hc Ht <-.
  assert (_get_available_agent (orch s) (Task.type task) = None) as Hsel.
  { apply get_available_agent_None. intros k a Ha.
    destruct (Hlost _ _ Ha) as [-> _]. done. }
  simpl. rewrite Hc, (process_start_no_agent _ _ _ _ Ht Hsel).
  eexists _, _. split; [reflexivity|]. simpl.
  split; [apply lookup_insert_eq|].
  rewrite task_of_fail_eq, Ht. simpl. done.
Qed.

(** C10, as the code has it.  An exception raised inside [execute_task] or
    [validate_result] puts the agent in Error.  An agent in Error that no
    lifecycle holds (none is still waiting for the model with it) stays in
    Error along every schedule and is never selected again; and once every
    agent of a category is in that condition, the category stays so and
    every task of that category that is started afterwards ends Failed
    with the no-agent reason. *)
Theorem C10_error_quarantine s r events s' :
  agent_status (orch s) r = Some ERROR →
  ¬ held s r →
  run settings s events = Some s' →
  (agent_status (orch s') r = Some ERROR ∧
   ¬ held s' r ∧
   ∀ ty a, _get_available_agent (orch s') ty ≠ Some (r, a)) ∧
  (∀ s0 tid r0 a0 msg,
     held_by s0 r0 tid → agent_at (orch s0) r0 = Some a0 →
     ∃ s1, step settings s0 (ModelDone tid (ModelRaised msg)) = Some s1 ∧
           agent_status (orch s1) r0 = Some ERROR) ∧
  (∀ s0 tid r0 result a0 msg,
     coros s0 !! tid = Some (AwaitVerifier r0 result) →
     agent_at (orch s0) r0 = Some a0 →
     ∃ s1, step settings s0 (VerifierDone tid (VerifierRaised msg)) = Some s1 ∧
           agent_status (orch s1) r0 = Some ERROR) ∧
  (∀ ty, category_lost s ty →
     category_lost s' ty ∧
     ∀ tid task,
       coros s' !! tid = Some Scheduled →
       task_of (orch s') tid = Some task →
       Task.type task = ty →
       ∃ s'' task',
         step settings s' (Start tid) = Some s'' ∧
         coros s'' !! tid = Some Returned ∧
         task_of (orch s'') tid = Some task' ∧
         Task.status task' = FAILED ∧
         Task.error task' = Some "No available agent found").
Proof.
  intros Herr Hfree Hrun.
  destruct (run_error_stays settings _ _ _ _ Herr Hfree Hrun)
    as [Herr' Hfree'].
  split_and!; try done.
  - intros ty a. by eapply not_idle_not_selected.
  - intros. by eapply model_raise_sets_error.
  - intros. by eapply verifier_raise_sets_error.
  - intros ty Hlost.
    pose proof (run_category_lost _ _ _ _ Hlost Hrun) as Hlost'.
    split; [done|]. intros tid task. by apply lost_category_rejects.
Qed.

End Quarantine.

(** * Terminal tasks *)

Section Terminal.

Variable settings : Settings.

(** The coroutine of a task writes to that task only. *)
Lemma after_execute_other o tid r result tid' :
  tid ≠ tid' →
  task_of (after_execute settings o tid r result).1 tid' = task_of o tid'.
Proof.
  intros Hne. unfold after_execute, _check_cost_limit, task_of.
  destruct (AgentResult.success result);
    [destruct (Qgtb _ _); [destruct (_cost_limit_reached o)|]|];
    simpl; by rewrite ?lookup_alter_ne.
Qed.

Lemma process_start_other o tid o' c tid' :
  tid ≠ tid' →
  process_start settings o tid = Return (o', c) →
  task_of o' tid' = task_of o tid'.
Proof.
  intros Hne. unfold process_start.
  destruct (_tasks o !! tid) as [task|]; [|done].
  destruct (_get_available_agent o (Task.type task)) as [[r a]|].
  - destruct (Agent.prepare_task a tid) as [a' []]; intros [= <- _];
      unfold task_of; simpl; by rewrite ?lookup_alter_ne.
  - intros [= <- _]. unfold task_of. simpl. by rewrite lookup_alter_ne.
Qed.

Lemma process_model_other o tid r reply tid' :
  tid ≠ tid' →
  task_of (process_model settings o tid r reply).1 tid' = task_of o tid'.
Proof.
  intros Hne. unfold process_model.
  destruct (execute_task_resume o r reply) as [o1 result] eqn:E.
  rewrite after_execute_other by done.
  destruct reply; simpl in E; by injection E as <- _.
Qed.

Lemma process_verifier_other o tid r result verdict tid' :
  tid ≠ tid' →
  task_of (process_verifier o tid r result verdict).1 tid' = task_of o tid'.
Proof.
  intros Hne. unfold process_verifier, validate_result_resume, task_of.
  destruct verdict as [msg|[] tokens]; simpl; by rewrite ?lookup_alter_ne.
Qed.

Lemma cancel_terminal o tid t :
  task_of o tid = Some t →
  Task.is_terminal (Task.status t) = true →
  cancel_task o tid = Return (o, false).
Proof. unfold task_of, cancel_task. by intros -> ->. Qed.

Lemma step_after_return s e s' tid t :
  coros s !! tid = Some Returned →
  task_of (orch s) tid = Some t →
  Task.is_terminal (Task.status t) = true →
  step settings s e = Some s' →
  coros s' !! tid = Some Returned ∧ task_of (orch s') tid = Some t.
Proof.
  intros Hc Ht Hterm.
  destruct e as [tid0 ty p|tid0|tid0|tid0 reply|tid0 verdict]; simpl.
  - destruct (_tasks (orch s) !! tid0) eqn:Hfresh; [done|]. intros [= <-].
    assert (tid0 ≠ tid) by (intros ->; unfold task_of in Ht; congruence).
    simpl. unfold task_of. simpl. by rewrite !lookup_insert_ne.
  - unfold cancel_task.
    destruct (_tasks (orch s) !! tid0) as [t0|] eqn:Ht0;
      [|by intros [= <-]].
    destruct (Task.is_terminal (Task.status t0)) eqn:Hterm0;
      intros [= <-]; [done|].
    assert (tid0 ≠ tid) by (intros ->; unfold task_of in Ht; congruence).
    simpl. split; [done|]. unfold task_of. simpl.
    by rewrite lookup_alter_ne.
  - destruct (coros s !! tid0) as [[]|] eqn:Hc0; try done.
    assert (tid0 ≠ tid) by (intros ->; congruence).
    destruct (process_start settings (orch s) tid0) as [[o c]|] eqn:E;
      intros [= <-]; simpl; rewrite lookup_insert_ne by done;
      [|done].
    split; [done|]. by rewrite (process_start_other _ _ _ _ _ H E).
  - destruct (coros s !! tid0) as [[| r | |]|] eqn:Hc0; try done.
    assert (tid0 ≠ tid) by (intros ->; congruence).
    pose proof (process_model_other (orch s) tid0 r reply tid H) as Ho.
    destruct (process_model settings (orch s) tid0 r reply) as [o c].
    intros [= <-]. simpl in *. rewrite lookup_insert_ne by done.
    split; [done|]. by rewrite Ho.
  - destruct (coros s !! tid0) as [[| | r result |]|] eqn:Hc0; try done.
    assert (tid0 ≠ tid) by (intros ->; congruence).
    pose proof (process_verifier_other (orch s) tid0 r result verdict tid H)
      as Ho.
    destruct (process_verifier (orch s) tid0 r result verdict) as [o c].
    intros [= <-]. simpl in *. rewrite lookup_insert_ne by done.
    split; [done|]. by rewrite Ho.
Qed.

(** C1, as the code has it.  No transition table is enforced:
    [update_status] writes whatever status it is given.  What protects a
    terminal task is [cancel_task], which on a task already Completed or
    Failed returns [False] and changes nothing, and the fact that a
    lifecycle writes to its own task only: once a task is terminal and its
    lifecycle has returned, no later event (submission, cancellation, step
    of another lifecycle) changes its status, result, error or any other
    field. *)
Theorem C1_terminal_after_return s tid t :
  task_of (orch s) tid = Some t →
  Task.is_terminal (Task.status t) = true →
  cancel_task (orch s) tid = Return (orch s, false) ∧
  (coros s !! tid = Some Returned →
   ∀ events s', run settings s events = Some s' →
                task_of (orch s') tid = Some t) ∧
  (∀ status progress t0,
     Task.status (Task.update_status status progress t0) = status).
Proof.
  intros Ht Hterm. split_and!; [by eapply cancel_terminal| |done].
  intros Hc events. revert s Ht Hc.
  induction events as [|e events IH]; intros s Ht Hc s'; simpl.
  - by intros [= <-].
  - destruct (step settings s e) as [s1|] eqn:E; [|done].
    destruct (step_after_return _ _ _ _ _ Hc Ht Hterm E) as [Hc1 Ht1].
    by apply IH.
Qed.

End Terminal.

(** A finished task survives a later cancellation and the whole lifecycle
    of another task. *)
Lemma C1_finished_task_is_kept :
  cancel_task (orch (state_after limit_5 (boot ready) schedule_A)) "t1"
  = Return (orch (state_after limit_5 (boot ready) schedule_A), false) ∧
  task_of
    (orch (state_after limit_5
             (state_after limit_5 (boot ready) schedule_A)
             (Cancel "t1" :: schedule_next)))
    "t1"
  = Some (Task.mk "t1" CODE MEDIUM COMPLETED 1%Q (Some (code_result 2))
            None 2%Q).
Proof.
  destruct (C1_terminal_after_return limit_5
              (state_after limit_5 (boot ready) schedule_A) "t1"
              (Task.mk "t1" CODE MEDIUM COMPLETED 1%Q (Some (code_result 2))
                 None 2%Q))
    as (Hcancel & Hkept & _).
  - vm_compute. reflexivity.
  - reflexivity.
  - split; [exact Hcancel|].
    apply (Hkept ltac:(vm_compute; reflexivity) (Cancel "t1" :: schedule_next)).
    vm_compute. reflexivity.
Defined.

(** * The scenarios, computed *)



Lemma C4_first_dispatch :
  the_coding_agent.1 = CODE ∧
  agent_at (orch one_submitted) the_coding_agent
  = Some (Agent.init "coding-agent-1" CODING) ∧
  Agent.status (Agent.init "coding-agent-1" CODING) = IDLE ∧
  (∀ k a', (k < the_coding_agent.2)%nat →
     agent_at (orch one_submitted) (CODE, k) = Some a' →
     Agent.status a' ≠ IDLE) ∧
  ∃ s', step limit_5 one_submitted (Start "t1") = Some s' ∧
        held_by s' the_coding_agent "t1" ∧
        agent_status (orch s') the_coding_agent = Some BUSY ∧
        (∀ r', r' ≠ the_coding_agent →
           agent_at (orch s') r' = agent_at (orch one_submitted) r') ∧
        (∀ ty a',
           _get_available_agent (orch s') ty ≠ Some (the_coding_agent, a')).
Proof.
  apply (C4_acquire_first_idle limit_5 one_submitted "t1"
           (Task.init "t1" CODE MEDIUM)).
  - vm_compute. reflexivity.
  - vm_compute. reflexivity.
Defined.

Lemma boot_exclusive o : holders_exclusive (boot o).
Proof.
  intros tid r H. unfold held_by in H. simpl in H.
  by rewrite lookup_empty in H.
Qed.

Lemma C5_agent_idle_after_failed_validation :
  (∃ o', _process_task limit_5 (submit_task ready "t1" CODE MEDIUM) "t1"
           (ModelResponse (code_result 2) 10) (VerifierSaid false 5)
         = Return o' ∧
         agent_status o' the_coding_agent = Some IDLE ∧
         agent_status o' the_coding_agent ≠ Some BUSY) ∧
  (∀ ty a',
     _get_available_agent
       (orch (state_after limit_5 one_submitted [Start "t1"])) ty
     ≠ Some (the_coding_agent, a')) ∧
  (∀ tid'',
     held_by (state_after limit_5 one_submitted [Start "t1"])
       the_coding_agent tid'' →
     tid'' = "t1") ∧
  (∃ s'',
     step limit_5 (state_after limit_5 one_submitted [Start "t1"])
       (ModelDone "t1" (ModelResponse (code_result 2) 10))
     = Some s'' ∧
     agent_status (orch s'') the_coding_agent = Some IDLE ∧
     ¬ held_by s'' the_coding_agent "t1").
Proof.
  destruct (C5_agent_after_lifecycle limit_5
              (submit_task ready "t1" CODE MEDIUM) "t1"
              (Task.init "t1" CODE MEDIUM) the_coding_agent
              (Agent.init "coding-agent-1" CODING)
              (ModelResponse (code_result 2) 10) (VerifierSaid false 5))
    as [Hend Hheld].
  - reflexivity.
  - reflexivity.
  - split; [exact Hend|].
    destruct (Hheld (boot ready)
                [Submit "t1" CODE MEDIUM; Start "t1"]
                (state_after limit_5 one_submitted [Start "t1"])
                (boot_exclusive ready)
                ltac:(vm_compute; reflexivity)
                "t1" the_coding_agent
                ltac:(vm_compute; reflexivity))
      as (Hsel & Huniq & Hrel).
    split; [exact Hsel|]. split; [exact Huniq|].
    exact (Hrel (ModelResponse (code_result 2) 10)).
Defined.

(** C5 fails on the code: when the model call raises inside
    [execute_task], the lifecycle returns with the agent in Error, not
    Idle. *)
Lemma C5_agent_in_error_after_raise :
  ∃ o', _process_task limit_5 (submit_task ready "t1" CODE MEDIUM) "t1"
          (ModelRaised "timeout") (VerifierSaid true 5)
        = Return o' ∧
        agent_status (submit_task ready "t1" CODE MEDIUM) the_coding_agent
        = Some IDLE ∧
        agent_status o' the_coding_agent = Some ERROR ∧
        agent_status o' the_coding_agent ≠ Some IDLE.
Proof.
  eexists. split; [vm_compute; reflexivity|].
  split; [reflexivity|]. split; [reflexivity|]. discriminate.
Qed.




Lemma after_raise_coros : coros after_raise = <["t1" := Returned]> ∅.
Proof. vm_compute. reflexivity. Qed.

Lemma after_raise_free : ¬ held after_raise the_coding_agent.
Proof.
  intros [tid H]. unfold held_by in H. rewrite after_raise_coros in H.
  apply lookup_insert_Some in H as [[_ H]|[_ H]]; [discriminate|].
  rewrite lookup_empty in H. discriminate.
Qed.

Lemma after_raise_lost : category_lost after_raise CODE.
Proof.
  intros [|k] a H.
  - vm_compute in H. injection H as <-.
    split; [reflexivity|exact after_raise_free].
  - vm_compute in H. destruct k; discriminate.
Qed.

Lemma C10_coding_agent_stays_out :
  agent_status
    (orch (state_after limit_5 after_raise schedule_next)) the_coding_agent
  = Some ERROR ∧
  ∃ s'' task',
    step limit_5 (state_after limit_5 after_raise schedule_next) (Start "t2")
    = Some s'' ∧
    coros s'' !! "t2" = Some Returned ∧
    task_of (orch s'') "t2" = Some task' ∧
    Task.status task' = FAILED ∧
    Task.error task' = Some "No available agent found".
Proof.
  destruct (C10_error_quarantine limit_5 after_raise the_coding_agent
              schedule_next (state_after limit_5 after_raise schedule_next))
    as ((Herr & _) & _ & _ & Hlost).
  - vm_compute. reflexivity.
  - exact after_raise_free.
  - vm_compute. reflexivity.
  - split; [exact Herr|].
    destruct (Hlost CODE after_raise_lost) as [_ Hreject].
    apply (Hreject "t2" (Task.init "t2" CODE MEDIUM)).
    + vm_compute. reflexivity.
    + vm_compute. reflexivity.
    + reflexivity.
Defined.

(** C10 fails on the code: the coding agent is put in Error by the
    validation of the first task while the second task's lifecycle holds
    it; when the second lifecycle gets its model response, [cleanup_task]
    sets the agent Idle again, and the third task is given that agent. *)
Lemma C10_error_agent_selected_again :
  ∃ s1 s2 s3,
    run limit_5 (boot ready) schedule_overlap = Some s1 ∧
    agent_status (orch s1) the_coding_agent = Some ERROR ∧
    run limit_5 s1 schedule_return = Some s2 ∧
    agent_status (orch s2) the_coding_agent = Some IDLE ∧
    run limit_5 s2 schedule_reuse = Some s3 ∧
    held_by s3 the_coding_agent "t3" ∧
    agent_status (orch s3) the_coding_agent = Some BUSY.
Proof.
  eexists _, _, _.
  split; [vm_compute; reflexivity|]. split; [vm_compute; reflexivity|].
  split; [vm_compute; reflexivity|]. split; [vm_compute; reflexivity|].
  split; [vm_compute; reflexivity|]. split; vm_compute; reflexivity.
Qed.

(** * Further properties of the code *)

(** ** Agents on their own ([agents/base.py]) *)

Section AgentOperations.

Implicit Types (a : Agent.t) (tid : string).

(** X1. [prepare_task] guards the agent: an agent that is not idle (busy,
    in error, offline) refuses and is left untouched; an idle agent accepts
    once, and a second [prepare_task] before [cleanup_task] is refused and
    leaves the first task in place. *)
Theorem prepare_task_guard a tid tid' :
  (Agent.status a ≠ IDLE → Agent.prepare_task a tid = (a, false)) ∧
  (Agent.status a = IDLE →
   ∃ a1, Agent.prepare_task a tid = (a1, true) ∧
         Agent.status a1 = BUSY ∧
         Agent.current_task_id a1 = Some tid ∧
         Agent.prepare_task a1 tid' = (a1, false)).
Proof.
  unfold Agent.prepare_task. split; intros H.
  - by rewrite decide_False.
  - rewrite decide_True by done. eexists. split; [reflexivity|].
    split; [done|]. split; [done|]. by rewrite decide_False.
Qed.

(** X2. [prepare_task] followed by [cleanup_task] brings an idle agent
    back to idle with no current task and one more completed task, its
    identity and usage counters unchanged; and [cleanup_task] sets Idle and
    clears the current task from any status whatever, [Error] included. *)
Theorem prepare_cleanup_round_trip a tid :
  Agent.status a = IDLE →
  let a' := Agent.cleanup_task (Agent.prepare_task a tid).1 in
  Agent.status a' = IDLE ∧
  Agent.current_task_id a' = None ∧
  Agent.total_tasks_completed a' = (Agent.total_tasks_completed a + 1)%Z ∧
  Agent.agent_id a' = Agent.agent_id a ∧
  Agent.agent_type a' = Agent.agent_type a ∧
  Agent.total_cost a' = Agent.total_cost a ∧
  Agent.total_tokens a' = Agent.total_tokens a ∧
  (∀ b, Agent.status (Agent.cleanup_task b) = IDLE ∧
        Agent.current_task_id (Agent.cleanup_task b) = None ∧
        Agent.total_tasks_completed (Agent.cleanup_task b)
        = (Agent.total_tasks_completed b + 1)%Z).
Proof.
  intros H. unfold Agent.prepare_task. rewrite decide_True by done.
  simpl. done.
Qed.

(** X3. The cost an agent computes from a token usage is not negative
    for a non-negative usage, does not decrease when the usage grows, and
    is at the verification rate twice what it is at the generation
    rate. *)
Theorem calculate_cost_monotone tokens tokens' is_verification :
  ((0 <= tokens)%Z →
   (0 <= Agent._calculate_cost tokens is_verification)%Q) ∧
  ((tokens <= tokens')%Z →
   (Agent._calculate_cost tokens is_verification
    <= Agent._calculate_cost tokens' is_verification)%Q) ∧
  (Agent._calculate_cost tokens true
   == 2 * Agent._calculate_cost tokens false)%Q.
Proof.
  unfold Agent._calculate_cost. split_and!.
  - intros H. apply Qmult_le_0_compat.
    + change 0%Q with (inject_Z 0). by rewrite <- Zle_Qle.
    + by destruct is_verification.
  - intros H. apply Qmult_le_compat_r.
    + by rewrite <- Zle_Qle.
    + by destruct is_verification.
  - ring.
Qed.

End AgentOperations.

Lemma prepare_task_guard_witness :
  ∃ a1, Agent.prepare_task (Agent.init "coding-agent-1" CODING) "t1"
        = (a1, true) ∧
        Agent.status a1 = BUSY ∧
        Agent.current_task_id a1 = Some "t1" ∧
        Agent.prepare_task a1 "t2" = (a1, false).
Proof.
  apply (prepare_task_guard (Agent.init "coding-agent-1" CODING) "t1" "t2").
  reflexivity.
Defined.

Lemma prepare_cleanup_round_trip_witness :
  Agent.status
    (Agent.cleanup_task
       (Agent.prepare_task (Agent.init "coding-agent-1" CODING) "t1").1)
  = IDLE.
Proof.
  apply (prepare_cleanup_round_trip (Agent.init "coding-agent-1" CODING) "t1").
  reflexivity.
Defined.

Lemma calculate_cost_monotone_witness :
  (0 <= Agent._calculate_cost 1500 true)%Q ∧
  (Agent._calculate_cost 1500 true <= Agent._calculate_cost 2000 true)%Q.
Proof.
  destruct (calculate_cost_monotone 1500 2000 true) as (Hpos & Hmono & _).
  split; [apply Hpos|apply Hmono]; lia.
Defined.

(** ** Admission of a cost *)

Section Admission.

Variable settings : Settings.
Implicit Types (o : Orchestrator) (c : Q).

(** X4. [_check_cost_limit] decides from the total, the cost and the limit
    alone: the limit flag plays no part in the answer, so that a cost that
    fits is admitted even after the flag has been raised.  An admitted cost
    leaves the orchestrator untouched, every smaller cost is admitted too,
    and a refusal changes nothing but the flag, which it raises. *)
Theorem check_cost_limit_admission o c :
  ((_check_cost_limit settings o c).2 = true ↔
   (_total_cost o + c <= COST_LIMIT settings)%Q) ∧
  ((_check_cost_limit settings o c).2 = true →
   (_check_cost_limit settings o c).1 = o ∧
   ∀ c', (c' <= c)%Q → (_check_cost_limit settings o c').2 = true) ∧
  ((_check_cost_limit settings o c).2 = false →
   let o' := (_check_cost_limit settings o c).1 in
   _cost_limit_reached o' = true ∧
   _total_cost o' = _total_cost o ∧
   _tasks o' = _tasks o ∧
   _agents o' = _agents o).
Proof.
  unfold _check_cost_limit.
  destruct (Qgtb (_total_cost o + c) (COST_LIMIT settings)) eqn:E; simpl.
  - apply Qgtb_true in E. split_and!.
    + split; [done|]. intros H. exfalso. eapply Qlt_not_le; eauto.
    + done.
    + intros _. by destruct (_cost_limit_reached o) eqn:F.
  - apply Qgtb_false in E. split_and!; [done| |done].
    intros _. split; [done|]. intros c' Hc'.
    assert (_total_cost o + c' <= COST_LIMIT settings)%Q as Hfit.
    { eapply Qle_trans; [|exact E].
      apply Qplus_le_compat; [apply Qle_refl|done]. }
    by rewrite (proj2 (Qgtb_false _ _) Hfit).
Qed.

(** X5. The agent's own [_check_cost_limit] answers from its accumulated
    usage cost: it accepts exactly the estimates that keep that cost within
    the limit, so once the usage recorded by [_track_usage] has passed the
    limit it refuses every non-negative estimate. *)
Theorem agent_check_cost_limit_usage (a : Agent.t) tokens usage estimate :
  (agent_check_cost_limit settings a estimate = true ↔
   (Agent.total_cost a + estimate <= COST_LIMIT settings)%Q) ∧
  ((COST_LIMIT settings < Agent.total_cost a + usage)%Q →
   (0 <= estimate)%Q →
   agent_check_cost_limit settings (Agent._track_usage tokens usage a)
     estimate = false).
Proof.
  unfold agent_check_cost_limit. split.
  - destruct (Qgtb _ _) eqn:E.
    + apply Qgtb_true in E. split; [done|]. intros H. exfalso.
      eapply Qlt_not_le; eauto.
    + by apply Qgtb_false in E.
  - intros Hover Hpos. simpl.
    assert (COST_LIMIT settings
            < Agent.total_cost a + usage + estimate)%Q as H.
    { eapply Qlt_le_trans; [exact Hover|].
      rewrite <- (Qplus_0_r (Agent.total_cost a + usage)) at 1.
      apply Qplus_le_compat; [apply Qle_refl|done]. }
    by rewrite (proj2 (Qgtb_true _ _) H).
Qed.

End Admission.

Lemma check_cost_limit_admission_witness :
  (_check_cost_limit limit_5 nearly_spent 0.5%Q).1 = nearly_spent ∧
  ∀ c', (c' <= 0.5)%Q → (_check_cost_limit limit_5 nearly_spent c').2 = true.
Proof.
  apply (check_cost_limit_admission limit_5 nearly_spent 0.5%Q).
  reflexivity.
Defined.

Lemma agent_check_cost_limit_usage_witness :
  agent_check_cost_limit limit_5
    (Agent._track_usage 6000 6%Q (Agent.init "coding-agent-1" CODING))
    0.1%Q
  = false.
Proof.
  apply (agent_check_cost_limit_usage limit_5
           (Agent.init "coding-agent-1" CODING) 6000 6%Q 0.1%Q).
  - vm_compute. reflexivity.
  - vm_compute. discriminate.
Defined.

(** ** Growing the pool *)

Section Creation.

Implicit Types (o : Orchestrator) (ty : TaskType).

(** X6. [_create_agent] appends: the new agent, idle and with zeroed
    counters, goes to the end of the list of its type, the agents already
    there and the lists of the other types stay as they are, and so do the
    tasks and the ledger.  Selection prefers the older agents: the new one
    is returned only when no agent of the type was available before.  An
    agent whose [initialize] failed is not added. *)
Theorem create_agent_appends o ty agent_id :
  let o' := (_create_agent o ty agent_id true).1 in
  let new := Agent.init agent_id (agent_class ty) in
  agents_of (_agents o') ty = (agents_of (_agents o) ty ++ [new])%list ∧
  (∀ ty', ty' ≠ ty → agents_of (_agents o') ty' = agents_of (_agents o) ty') ∧
  _tasks o' = _tasks o ∧
  _total_cost o' = _total_cost o ∧
  (∀ found, _get_available_agent o ty = Some found →
            _get_available_agent o' ty = Some found) ∧
  (_get_available_agent o ty = None →
   _get_available_agent o' ty
   = Some ((ty, length (agents_of (_agents o) ty)), new)) ∧
  _create_agent o ty agent_id false = (o, false).
Proof.
  assert (∀ l i new,
            Agent.status new = IDLE →
            first_idle (l ++ [new])%list i
            = match first_idle l i with
              | Some found => Some found
              | None => Some ((i + length l)%nat, new)
              end) as Happ.
  { induction l as [|b l IH]; intros i new Hnew; simpl.
    - rewrite decide_True by done. f_equal. f_equal. lia.
    - case_decide; [done|]. rewrite IH by done.
      destruct (first_idle l (S i)); [done|]. f_equal. f_equal. lia. }
  simpl. rewrite agents_of_with_agents_eq. split_and!; try done.
  - intros ty' Hne. by rewrite agents_of_with_agents_ne.
  - intros found. unfold _get_available_agent. simpl.
    rewrite agents_of_with_agents_eq, Happ by done.
    by destruct (first_idle (agents_of (_agents o) ty) 0).
  - unfold _get_available_agent. simpl.
    rewrite agents_of_with_agents_eq, Happ by done.
    by destruct (first_idle (agents_of (_agents o) ty) 0).
Qed.

End Creation.

Lemma create_agent_appends_witness :
  _get_available_agent
    (_create_agent ready CODE "coding-agent-2" true).1 CODE
  = Some (the_coding_agent, Agent.init "coding-agent-1" CODING) ∧
  _get_available_agent
    (_create_agent Orchestrator_init CODE "coding-agent-1" true).1 CODE
  = Some (the_coding_agent, Agent.init "coding-agent-1" CODING).
Proof.
  destruct (create_agent_appends ready CODE "coding-agent-2")
    as (_ & _ & _ & _ & Hold & _).
  destruct (create_agent_appends Orchestrator_init CODE "coding-agent-1")
    as (_ & _ & _ & _ & _ & Hnew & _).
  split.
  - apply Hold. reflexivity.
  - apply Hnew. reflexivity.
Defined.

(** ** Submission, status and cancellation *)

Section RegistryOperations.

Implicit Types (o : Orchestrator) (tid : string).

(** X7. A submitted task is at once visible to [get_task_status] as
    Pending with progress 0, cost 0, no result and no error; the status of
    every other task, the agents and the ledger are as before.  (An entry
    already stored under the same identifier would be replaced.) *)
Theorem submit_then_status o tid ty p :
  let o' := submit_task o tid ty p in
  get_task_status o' tid
  = Return {| view_id := tid; view_type := ty; view_status := PENDING;
              view_progress := 0%Q; view_cost := 0%Q;
              view_result := None; view_error := None |} ∧
  (∀ tid', tid' ≠ tid → get_task_status o' tid' = get_task_status o tid') ∧
  _agents o' = _agents o ∧
  _total_cost o' = _total_cost o ∧
  _cost_limit_reached o' = _cost_limit_reached o.
Proof.
  simpl. unfold get_task_status. simpl. split_and!; try done.
  - by rewrite lookup_insert_eq.
  - intros tid' Hne. by rewrite lookup_insert_ne.
Qed.

(** X8. [cancel_task] answers [True] exactly for a registered task that is
    neither Completed nor Failed.  It then writes the status and the error
    of that task only: progress, cost and result of the task, all other
    tasks, the ledger and the agents are untouched, so that an agent
    working on the cancelled task stays as it is.  A second [cancel_task] on
    the same task answers [False] and changes nothing. *)
Theorem cancel_task_effect o tid :
  ∃ o' answer,
    cancel_task o tid = Return (o', answer) ∧
    (answer = true ↔
     ∃ t, task_of o tid = Some t ∧ Task.is_terminal (Task.status t) = false) ∧
    (answer = false → o' = o) ∧
    _agents o' = _agents o ∧
    _total_cost o' = _total_cost o ∧
    _cost_limit_reached o' = _cost_limit_reached o ∧
    (∀ tid', tid' ≠ tid → task_of o' tid' = task_of o tid') ∧
    (∀ t, task_of o tid = Some t →
       ∃ t', task_of o' tid = Some t' ∧
             Task.progress t' = Task.progress t ∧
             Task.cost t' = Task.cost t ∧
             Task.result t' = Task.result t ∧
             Task.type t' = Task.type t) ∧
    cancel_task o' tid = Return (o', false).
Proof.
  unfold cancel_task, task_of.
  destruct (_tasks o !! tid) as [t|] eqn:Ht.
  - destruct (Task.is_terminal (Task.status t)) eqn:Hterm.
    + exists o, false. rewrite Ht, Hterm. split_and!; try done.
      * split; [done|]. intros (t0 & [= <-] & H). congruence.
      * intros t0 [= <-]. eauto 10.
    + eexists _, true. split; [reflexivity|]. simpl.
      rewrite lookup_alter_eq, Ht. simpl. split_and!; try done.
      * split; [eauto|done].
      * intros tid' Hne. by rewrite lookup_alter_ne.
      * intros t0 [= <-]. eauto 10.
  - exists o, false. rewrite Ht. split_and!; try done.
    split; [done|]. by intros (t0 & H & _).
Qed.

End RegistryOperations.

(** ** Other ends of a lifecycle *)

Section LifecycleEnds.

Variable settings : Settings.
Implicit Types (o : Orchestrator) (tid : string).

(** X9. A lifecycle that finds no idle agent of its task's type fails the
    task with the no-agent error and stops there: no agent is touched, the
    ledger and the limit flag are as before, the task keeps its progress,
    cost and result, and no other task changes. *)
Theorem lifecycle_without_agent o tid task reply verdict :
  task_of o tid = Some task →
  _get_available_agent o (Task.type task) = None →
  ∃ o' task',
    _process_task settings o tid reply verdict = Return o' ∧
    task_of o' tid = Some task' ∧
    Task.status task' = FAILED ∧
    Task.error task' = Some "No available agent found" ∧
    Task.progress task' = Task.progress task ∧
    Task.cost task' = Task.cost task ∧
    Task.result task' = Task.result task ∧
    _agents o' = _agents o ∧
    _total_cost o' = _total_cost o ∧
    _cost_limit_reached o' = _cost_limit_reached o ∧
    (∀ tid', tid' ≠ tid → task_of o' tid' = task_of o tid').
Proof.
  intros Ht Hsel. unfold _process_task.
  rewrite (process_start_no_agent _ _ _ _ Ht Hsel).
  eexists _, _. split; [reflexivity|].
  rewrite task_of_fail_eq, Ht. simpl. split_and!; try done.
  intros tid' Hne. unfold fail_task. by rewrite task_of_modify_ne.
Qed.

(** X10. When the execution does not succeed, the task fails with the
    agent's message — the text of the exception raised inside
    [execute_task], or the error of the failure result — at progress 0.2;
    nothing is charged: the ledger, the limit flag and the task's cost are
    as before, and the verifier is not asked. *)
Theorem lifecycle_execution_failure o tid task r a reply verdict :
  task_of o tid = Some task →
  _get_available_agent o (Task.type task) = Some (r, a) →
  match reply with
  | ModelRaised _ => True
  | ModelResponse result _ => AgentResult.success result = false
  end →
  ∃ o' task',
    _process_task settings o tid reply verdict = Return o' ∧
    task_of o' tid = Some task' ∧
    Task.status task' = FAILED ∧
    Task.error task'
    = match reply with
      | ModelRaised msg => Some msg
      | ModelResponse result _ => AgentResult.error result
      end ∧
    Task.progress task' = 0.2%Q ∧
    Task.cost task' = Task.cost task ∧
    Task.result task' = Task.result task ∧
    _total_cost o' = _total_cost o ∧
    _cost_limit_reached o' = _cost_limit_reached o ∧
    (∀ verdict',
       _process_task settings o tid reply verdict' = Return o').
Proof.
  intros Ht Hsel Hfail. unfold _process_task.
  rewrite (process_start_dispatch _ _ _ _ _ _ Ht Hsel).
  unfold process_model, execute_task_resume, after_execute.
  destruct reply as [msg|result tokens]; simpl.
  - eexists _, _. split; [reflexivity|].
    unfold task_of in *. simpl. rewrite !lookup_alter_eq, Ht. simpl.
    split_and!; done.
  - rewrite Hfail. eexists _, _. split; [reflexivity|].
    unfold task_of in *. simpl. rewrite !lookup_alter_eq, Ht. simpl.
    split_and!; done.
Qed.

(** X11. [_process_task] raises [KeyError] when the task is not in the
    registry, the one exception that leaves the coroutine; for a registered
    task it returns whatever the agent and the verifier deliver, and the
    task is then Completed or Failed, never Pending, InProgress or
    Verifying. *)
Theorem lifecycle_ends_terminal o tid reply verdict :
  match task_of o tid with
  | None =>
      _process_task settings o tid reply verdict = Raise (KeyError tid)
  | Some task =>
      ∃ o' task',
        _process_task settings o tid reply verdict = Return o' ∧
        task_of o' tid = Some task' ∧
        Task.is_terminal (Task.status task') = true
  end.
Proof.
  destruct (task_of o tid) as [task|] eqn:Ht.
  - destruct (_get_available_agent o (Task.type task)) as [[r a]|] eqn:Hsel.
    + unfold _process_task.
      rewrite (process_start_dispatch _ _ _ _ _ _ Ht Hsel).
      unfold process_model, execute_task_resume, after_execute,
        _check_cost_limit.
      destruct reply as [msg|result tokens]; simpl.
      * eexists _, _. split; [reflexivity|].
        unfold task_of in *. simpl. rewrite !lookup_alter_eq, Ht. done.
      * destruct (AgentResult.success result);
          [destruct (Qgtb _ _); [destruct (_cost_limit_reached o)|]|];
          simpl.
        -- eexists _, _. split; [reflexivity|].
           unfold task_of in *. simpl. rewrite !lookup_alter_eq, Ht. done.
        -- eexists _, _. split; [reflexivity|].
           unfold task_of in *. simpl. rewrite !lookup_alter_eq, Ht. done.
        -- unfold process_verifier, validate_result_resume.
           destruct verdict as [vmsg|[] vtokens]; simpl;
             (eexists _, _; split; [reflexivity|]);
             unfold task_of in *; simpl;
             rewrite !lookup_alter_eq, Ht; done.
        -- eexists _, _. split; [reflexivity|].
           unfold task_of in *. simpl. rewrite !lookup_alter_eq, Ht. done.
    + destruct (lifecycle_without_agent o tid task reply verdict Ht Hsel)
        as (o' & task' & Hrun & Ht' & Hst & _).
      exists o', task'. by rewrite Hst.
  - unfold _process_task, process_start. unfold task_of in Ht.
    by rewrite Ht.
Qed.

End LifecycleEnds.

Lemma lifecycle_without_agent_witness :
  ∃ o' task',
    _process_task limit_5 (orch after_raise) "t1"
      (ModelRaised "unused") (VerifierSaid true 0) = Return o' ∧
    task_of o' "t1" = Some task' ∧
    Task.error task' = Some "No available agent found" ∧
    _agents o' = _agents (orch after_raise).
Proof.
  destruct (lifecycle_without_agent limit_5 (orch after_raise) "t1"
              (Task.mk "t1" CODE MEDIUM FAILED 0.2%Q None (Some "timeout")
                 0%Q)
              (ModelRaised "unused") (VerifierSaid true 0))
    as (o' & task' & H1 & H2 & _ & H4 & _ & _ & _ & H8 & _).
  - vm_compute. reflexivity.
  - vm_compute. reflexivity.
  - by exists o', task'.
Defined.

Lemma lifecycle_execution_failure_witness :
  ∃ o' task',
    _process_task limit_5 (submit_task ready "t1" CODE MEDIUM) "t1"
      (ModelRaised "timeout") (VerifierSaid true 0) = Return o' ∧
    task_of o' "t1" = Some task' ∧
    Task.status task' = FAILED ∧
    Task.error task' = Some "timeout".
Proof.
  destruct (lifecycle_execution_failure limit_5
              (submit_task ready "t1" CODE MEDIUM) "t1"
              (Task.init "t1" CODE MEDIUM) the_coding_agent
              (Agent.init "coding-agent-1" CODING)
              (ModelRaised "timeout") (VerifierSaid true 0))
    as (o' & task' & H1 & H2 & H3 & H4 & _).
  - reflexivity.
  - reflexivity.
  - exact I.
  - by exists o', task'.
Defined.

(** ** The registry along a schedule *)

Section RegistryInvariants.

Variable settings : Settings.

Lemma step_task_effect s e s' :
  step settings s e = Some s' → task_effect s s'.
Proof.
  destruct e as [tid ty p|tid|tid|tid reply|tid verdict]; simpl.
  - destruct (_tasks (orch s) !! tid) eqn:Hfresh; [done|]. intros [= <-].
    by eapply (teff_submit _ _ tid ty p).
  - unfold cancel_task.
    destruct (_tasks (orch s) !! tid) as [t|] eqn:Ht.
    + destruct (Task.is_terminal (Task.status t)) eqn:Hterm; intros [= <-].
      * apply teff_none; auto.
      * by eapply (teff_cancel _ _ tid t).
    + intros [= <-]. apply teff_none; auto.
  - destruct (coros s !! tid) as [[]|] eqn:Hc; try done.
    destruct (task_of (orch s) tid) as [task|] eqn:Ht.
    + destruct (_get_available_agent (orch s) (Task.type task))
        as [[r a]|] eqn:Hsel.
      * rewrite (process_start_dispatch _ _ _ _ _ _ Ht Hsel). intros [= <-].
        by eapply (teff_write _ _ tid WriteStarted Scheduled (AwaitModel r)).
      * rewrite (process_start_no_agent _ _ _ _ Ht Hsel). intros [= <-].
        by eapply (teff_write _ _ tid
                     (WriteFailed (Some "No available agent found"))
                     Scheduled Returned).
    + unfold process_start. pose proof Ht as Ht'. unfold task_of in Ht'.
      rewrite Ht'. intros [= <-]. apply teff_none; eauto.
  - destruct (coros s !! tid) as [[| r | |]|] eqn:Hc; try done.
    unfold process_model, execute_task_resume, after_execute,
      _check_cost_limit.
    destruct reply as [msg|result tokens]; simpl.
    + intros [= <-].
      by eapply (teff_write _ _ tid (WriteFailed (Some msg))
                   (AwaitModel r) Returned).
    + destruct (AgentResult.success result).
      * destruct (Qgtb _ _).
        -- destruct (_cost_limit_reached (orch s)); simpl; intros [= <-];
             by eapply (teff_write _ _ tid
                          (WriteFailed (Some "Cost limit reached"))
                          (AwaitModel r) Returned).
        -- simpl. intros [= <-].
           eapply (teff_write _ _ tid
                     (WriteCharged (AgentResult.cost result))
                     (AwaitModel r) (AwaitVerifier r result));
             try done.
           simpl. by rewrite alter_alter_eq.
      * intros [= <-].
        by eapply (teff_write _ _ tid
                     (WriteFailed (AgentResult.error result))
                     (AwaitModel r) Returned).
  - destruct (coros s !! tid) as [[| | r result |]|] eqn:Hc; try done.
    unfold process_verifier, validate_result_resume.
    destruct verdict as [msg|[] tokens]; simpl; intros [= <-].
    + by eapply (teff_write _ _ tid
                   (WriteFailed (Some "Result validation failed"))
                   (AwaitVerifier r result) Returned).
    + eapply (teff_write _ _ tid (WriteCompleted result)
                (AwaitVerifier r result) Returned); try done.
      simpl. by rewrite alter_alter_eq.
    + by eapply (teff_write _ _ tid
                   (WriteFailed (Some "Result validation failed"))
                   (AwaitVerifier r result) Returned).
Qed.

(** A write keeps what identifies the task. *)
Lemma apply_write_identity w t :
  Task.task_id (apply_write w t) = Task.task_id t ∧
  Task.type (apply_write w t) = Task.type t ∧
  Task.priority (apply_write w t) = Task.priority t.
Proof. by destruct w. Qed.

Lemma effect_task_kept s s' tid t :
  task_effect s s' →
  task_of (orch s) tid = Some t →
  ∃ t', task_of (orch s') tid = Some t' ∧
        Task.task_id t' = Task.task_id t ∧
        Task.type t' = Task.type t ∧
        Task.priority t' = Task.priority t.
Proof.
  unfold task_of. intros Heff Ht.
  destruct Heff as [tid0 ty p Hfresh Htasks _ _ | Htasks _ _
                   | tid0 t0 _ _ Htasks _ _ | tid0 w c c' _ _ Htasks _ _];
    rewrite Htasks.
  - exists t. split; [|done]. rewrite lookup_insert_ne; [done|].
    intros ->. unfold task_of in Hfresh. congruence.
  - by exists t.
  - destruct (decide (tid0 = tid)) as [->|Hne].
    + rewrite lookup_alter_eq, Ht. simpl. eauto.
    + rewrite lookup_alter_ne by done. by exists t.
  - destruct (decide (tid0 = tid)) as [->|Hne].
    + rewrite lookup_alter_eq, Ht. simpl. eexists. split; [done|].
      apply apply_write_identity.
    + rewrite lookup_alter_ne by done. by exists t.
Qed.

(** X12. The registry only grows: along every schedule, whatever the
    interleaving, a registered task stays registered under its identifier,
    and its task id, type and priority never change. *)
Theorem registry_keeps_tasks s events s' tid t :
  run settings s events = Some s' →
  task_of (orch s) tid = Some t →
  ∃ t', task_of (orch s') tid = Some t' ∧
        Task.task_id t' = Task.task_id t ∧
        Task.type t' = Task.type t ∧
        Task.priority t' = Task.priority t.
Proof.
  revert s t. induction events as [|e events IH]; intros s t; simpl.
  - intros [= <-] Ht. by exists t.
  - destruct (step settings s e) as [s1|] eqn:E; [|done].
    intros Hrun Ht.
    destruct (effect_task_kept _ _ _ _ (step_task_effect _ _ _ E) Ht)
      as (t1 & Ht1 & Hid & Hty & Hpr).
    destruct (IH _ _ Hrun Ht1) as (t' & Ht' & Hid' & Hty' & Hpr').
    exists t'. split; [done|]. split_and!; congruence.
Qed.

Lemma effect_on_track s s' :
  task_effect s s' → coroutines_on_track s → coroutines_on_track s'.
Proof.
  intros Heff Hs tid c Hc. unfold task_of in *.
  destruct Heff as [tid0 ty p Hfresh Htasks _ Hco | Htasks _ Hco
                   | tid0 t0 _ _ Htasks _ Hco
                   | tid0 w c0 c1 Hc0 Hmove Htasks _ Hco];
    rewrite Htasks.
  - rewrite Hco in Hc.
    apply lookup_insert_Some in Hc as [[<- <-]|[Hne Hc]].
    + rewrite lookup_insert_eq. by eexists.
    + rewrite lookup_insert_ne by done. by apply Hs.
  - destruct Hco as [Hco|(tid0 & Hc0 & Hnone & Hco)]; rewrite Hco in Hc.
    + by apply Hs.
    + destruct (Hs _ _ Hc0) as (t & Ht & _). unfold task_of in *. congruence.
  - rewrite Hco in Hc. destruct (Hs _ _ Hc) as (t & Ht & Hp & Hcost).
    unfold task_of in Ht.
    destruct (decide (tid0 = tid)) as [->|Hne].
    + rewrite lookup_alter_eq, Ht. simpl. by eexists.
    + rewrite lookup_alter_ne by done. by exists t.
  - rewrite Hco in Hc.
    apply lookup_insert_Some in Hc as [[<- <-]|[Hne Hc]].
    + destruct (Hs _ _ Hc0) as (t & Ht & Hp & Hcost).
      unfold task_of in Ht.
      rewrite lookup_alter_eq, Ht. simpl. eexists. split; [done|].
      destruct c0, w, c1; simpl in *; done.
    + rewrite lookup_alter_ne by done. by apply Hs.
Qed.

Lemma effect_progress s s' tid t :
  task_effect s s' →
  coroutines_on_track s →
  task_of (orch s) tid = Some t →
  ∃ t', task_of (orch s') tid = Some t' ∧
        (Task.progress t <= Task.progress t')%Q.
Proof.
  unfold task_of. intros Heff Hs Ht.
  destruct Heff as [tid0 ty p Hfresh Htasks _ Hco | Htasks _ Hco
                   | tid0 t0 _ _ Htasks _ Hco
                   | tid0 w c0 c1 Hc0 Hmove Htasks _ Hco];
    rewrite Htasks.
  - exists t. split; [|apply Qle_refl]. rewrite lookup_insert_ne; [done|].
    intros ->. unfold task_of in Hfresh. congruence.
  - exists t. split; [done|apply Qle_refl].
  - destruct (decide (tid0 = tid)) as [->|Hne].
    + rewrite lookup_alter_eq, Ht. simpl. eexists. split; [done|].
      apply Qle_refl.
    + rewrite lookup_alter_ne by done. exists t. split; [done|].
      apply Qle_refl.
  - destruct (decide (tid0 = tid)) as [->|Hne].
    + destruct (Hs _ _ Hc0) as (t0 & Ht0 & Hp & _). unfold task_of in Ht0.
      assert (t0 = t) as -> by congruence.
      rewrite lookup_alter_eq, Ht. simpl. eexists. split; [done|].
      destruct c0, w, c1; simpl in *; try done;
        try apply Qle_refl; rewrite Hp; vm_compute; discriminate.
    + rewrite lookup_alter_ne by done. exists t. split; [done|].
      apply Qle_refl.
Qed.

Lemma run_on_track s events s' :
  coroutines_on_track s →
  run settings s events = Some s' →
  coroutines_on_track s'.
Proof.
  revert s. induction events as [|e events IH]; intros s Hs; simpl.
  - by intros [= <-].
  - destruct (step settings s e) as [s1|] eqn:E; [|done].
    apply IH. eapply effect_on_track; [|done]. by eapply step_task_effect.
Qed.

(** X13. Progress never goes back: along every schedule in which each
    running lifecycle started from its submission, cancellations included,
    the progress of a task only stays or grows (0, then 0.2 at the start of
    the execution, 0.8 at the admission of the cost, 1.0 at completion; a
    failure or a cancellation keeps the progress reached). *)
Theorem progress_never_decreases s events s' tid t :
  coroutines_on_track s →
  run settings s events = Some s' →
  task_of (orch s) tid = Some t →
  ∃ t', task_of (orch s') tid = Some t' ∧
        (Task.progress t <= Task.progress t')%Q.
Proof.
  revert s t. induction events as [|e events IH]; intros s t Hs; simpl.
  - intros [= <-] Ht. exists t. split; [done|apply Qle_refl].
  - destruct (step settings s e) as [s1|] eqn:E; [|done].
    intros Hrun Ht. apply step_task_effect in E.
    destruct (effect_progress _ _ _ _ E Hs Ht) as (t1 & Ht1 & Hle1).
    destruct (IH _ _ (effect_on_track _ _ E Hs) Hrun Ht1)
      as (t' & Ht' & Hle').
    exists t'. split; [done|]. by eapply Qle_trans.
Qed.

(** The cost of a task is written in one place. *)
Lemma apply_write_cost w t :
  Task.cost (apply_write w t)
  = match w with WriteCharged c => c | _ => Task.cost t end.
Proof. by destruct w. Qed.

Lemma effect_charge s s' :
  task_effect s s' →
  coroutines_on_track s →
  costs_kept s s' ∨ cost_step s s'.
Proof.
  intros Heff Hs.
  destruct Heff as [tid0 ty p Hfresh Htasks Htot _ | Htasks Htot _
                   | tid0 t0 Ht0 _ Htasks Htot _
                   | tid0 w c0 c1 Hc0 Hmove Htasks Htot _].
  - left. split; [done|]. intros tid u Hu. exists u. split; [|done].
    unfold task_of in *. rewrite Htasks, lookup_insert_ne; [done|].
    intros ->. congruence.
  - left. split; [done|]. intros tid u Hu. exists u.
    unfold task_of in *. by rewrite Htasks.
  - left. split; [done|]. intros tid u Hu. unfold task_of in *.
    rewrite Htasks. destruct (decide (tid0 = tid)) as [->|Hne].
    + rewrite lookup_alter_eq, Hu. simpl. by eexists.
    + rewrite lookup_alter_ne by done. by exists u.
  - destruct (Hs _ _ Hc0) as (t & Ht & _ & Hcost).
    assert (∀ tid u, tid0 ≠ tid → task_of (orch s) tid = Some u →
              ∃ u', task_of (orch s') tid = Some u' ∧
                    Task.cost u' = Task.cost u) as Hother.
    { intros tid u Hne Hu. exists u. unfold task_of in *.
      by rewrite Htasks, lookup_alter_ne. }
    assert (task_of (orch s') tid0 = Some (apply_write w t)) as Ht'.
    { unfold task_of in *. by rewrite Htasks, lookup_alter_eq, Ht. }
    destruct w as [msg| |c|result].
    + left. split; [done|]. intros tid u Hu.
      destruct (decide (tid0 = tid)) as [<-|Hne]; [|by eapply Hother].
      assert (u = t) as -> by congruence. by eexists.
    + left. split; [done|]. intros tid u Hu.
      destruct (decide (tid0 = tid)) as [<-|Hne]; [|by eapply Hother].
      assert (u = t) as -> by congruence. by eexists.
    + right. exists tid0, t, c. destruct c0, c1; simpl in *; try done.
      split_and!; [done|done|done|by eexists|].
      intros tid u Hne. by apply Hother.
    + left. split; [done|]. intros tid u Hu.
      destruct (decide (tid0 = tid)) as [<-|Hne]; [|by eapply Hother].
      assert (u = t) as -> by congruence. by eexists.
Qed.

Lemma effect_cost_frozen s s' tid t :
  task_effect s s' →
  past_cost_step s tid →
  task_of (orch s) tid = Some t →
  past_cost_step s' tid ∧
  ∃ t', task_of (orch s') tid = Some t' ∧ Task.cost t' = Task.cost t.
Proof.
  unfold past_cost_step, task_of. intros Heff Hpast Ht.
  destruct Heff as [tid0 ty p Hfresh Htasks _ Hco | Htasks _ Hco
                   | tid0 t0 _ _ Htasks _ Hco
                   | tid0 w c0 c1 Hc0 Hmove Htasks _ Hco];
    rewrite Htasks.
  - assert (tid0 ≠ tid) by (intros ->; unfold task_of in *; congruence).
    rewrite Hco, !lookup_insert_ne by done. split; [done|]. by exists t.
  - split; [|by exists t].
    destruct Hco as [->|(tid0 & Hc0 & Hnone & ->)]; [done|].
    assert (tid0 ≠ tid) by (intros ->; unfold task_of in *; congruence).
    by rewrite lookup_insert_ne.
  - rewrite Hco. split; [done|].
    destruct (decide (tid0 = tid)) as [->|Hne].
    + rewrite lookup_alter_eq, Ht. simpl. by eexists.
    + rewrite lookup_alter_ne by done. by exists t.
  - rewrite Hco. destruct (decide (tid0 = tid)) as [->|Hne].
    + rewrite lookup_insert_eq, lookup_alter_eq, Ht. simpl.
      destruct Hpast as (c & Hc & Hpast).
      assert (c0 = c) as -> by congruence.
      destruct c, w, c1; simpl in *; try done;
        (split; [by eexists|by eexists]).
    + rewrite lookup_insert_ne, lookup_alter_ne by done.
      split; [done|]. by exists t.
Qed.

(** X14. No cost is counted twice: along every schedule in which each
    running lifecycle started from its submission, once a lifecycle is
    past its cost step the cost of its task never changes again; and every
    step either leaves the ledger and the cost of every task as they are,
    or adds an amount to the ledger and writes that same amount as the cost
    of one task, whose cost was still 0, leaving the cost of every other
    task alone. *)
Theorem cost_charged_once s events s' :
  coroutines_on_track s →
  run settings s events = Some s' →
  (∀ tid t,
     past_cost_step s tid →
     task_of (orch s) tid = Some t →
     ∃ t', task_of (orch s') tid = Some t' ∧ Task.cost t' = Task.cost t) ∧
  (∀ e s'', step settings s' e = Some s'' →
            costs_kept s' s'' ∨ cost_step s' s'').
Proof.
  intros Hs Hrun. split.
  - clear Hs. intros tid. revert s Hrun.
    induction events as [|e events IH]; intros s; simpl.
    + intros [= <-] t _ Ht. by exists t.
    + destruct (step settings s e) as [s1|] eqn:E; [|done].
      intros Hrun t Hpast Ht. apply step_task_effect in E.
      destruct (effect_cost_frozen _ _ _ _ E Hpast Ht)
        as (Hpast1 & t1 & Ht1 & Hcost1).
      destruct (IH _ Hrun _ Hpast1 Ht1) as (t' & Ht' & Hcost').
      exists t'. split; [done|]. congruence.
  - intros e s'' E. apply effect_charge.
    + by eapply step_task_effect.
    + by eapply run_on_track.
Qed.

End RegistryInvariants.

(** ** The pool along a schedule *)

Section PoolInvariants.

Variable settings : Settings.

Lemma agent_evolves_refl a : agent_evolves a a.
Proof. unfold agent_evolves. split_and!; [done|done|lia]. Qed.

Lemma agent_evolves_trans a b c :
  agent_evolves a b → agent_evolves b c → agent_evolves a c.
Proof.
  unfold agent_evolves. intros (-> & -> & ?) (-> & -> & ?).
  split_and!; [done|done|lia].
Qed.

Lemma pool_evolves_refl (l : list Agent.t) : Forall2 agent_evolves l l.
Proof.
  apply Forall_Forall2_diag, Forall_forall. intros.
  apply agent_evolves_refl.
Qed.

Lemma modify_agent_evolves o r f ty :
  (∀ a, agent_at o r = Some a → agent_evolves a (f a)) →
  Forall2 agent_evolves (agents_of (_agents o) ty)
    (agents_of (_agents (modify_agent r f o)) ty).
Proof.
  intros Hf. unfold modify_agent. simpl.
  rewrite agents_of_with_agents. case_decide as Hty; [subst ty|].
  - apply Forall2_alter_r; [apply pool_evolves_refl|].
    intros x y Hx Hy _. assert (y = x) as -> by congruence.
    by apply Hf.
  - apply pool_evolves_refl.
Qed.

Lemma step_pool_evolves s e s' ty :
  step settings s e = Some s' →
  Forall2 agent_evolves (agents_of (_agents (orch s)) ty)
    (agents_of (_agents (orch s')) ty).
Proof.
  destruct e as [tid ty0 p|tid|tid|tid reply|tid verdict]; simpl.
  - destruct (_tasks (orch s) !! tid); [done|]. intros [= <-].
    apply pool_evolves_refl.
  - destruct (cancel_task (orch s) tid) as [[o b]|] eqn:E; [|done].
    intros [= <-]. simpl. rewrite (cancel_task_agents _ _ _ _ E).
    apply pool_evolves_refl.
  - destruct (coros s !! tid) as [[]|] eqn:Hc; try done.
    destruct (task_of (orch s) tid) as [task|] eqn:Ht.
    + destruct (_get_available_agent (orch s) (Task.type task))
        as [[r a]|] eqn:Hsel.
      * rewrite (process_start_dispatch _ _ _ _ _ _ Ht Hsel). intros [= <-].
        apply get_available_agent_Some in Hsel as (_ & Ha & _).
        apply (modify_agent_evolves (orch s) r (λ _, busy_with tid a) ty).
        intros a0 Ha0. assert (a0 = a) as -> by congruence.
        unfold agent_evolves. simpl. split_and!; [done|done|lia].
      * rewrite (process_start_no_agent _ _ _ _ Ht Hsel). intros [= <-].
        apply pool_evolves_refl.
    + unfold process_start. unfold task_of in Ht. rewrite Ht.
      intros [= <-]. apply pool_evolves_refl.
  - destruct (coros s !! tid) as [[| r | |]|] eqn:Hc; try done.
    unfold process_model, execute_task_resume, after_execute,
      _check_cost_limit.
    destruct reply as [msg|result tokens]; simpl.
    + intros [= <-].
      apply (modify_agent_evolves (orch s) r Agent.handle_error ty).
      intros a _. unfold agent_evolves. simpl. split_and!; [done|done|lia].
    + destruct (AgentResult.success result);
        [destruct (Qgtb _ _); [destruct (_cost_limit_reached (orch s))|]|];
        simpl; intros [= <-];
        (apply (modify_agent_evolves (orch s) r
                  (λ a, Agent.cleanup_task
                          (Agent._track_usage tokens
                             (Agent._calculate_cost tokens false) a)) ty);
         intros a _; unfold agent_evolves; simpl;
         split_and!; [done|done|lia]).
  - destruct (coros s !! tid) as [[| | r result |]|] eqn:Hc; try done.
    unfold process_verifier, validate_result_resume.
    destruct verdict as [msg|[] tokens]; simpl; intros [= <-].
    + apply (modify_agent_evolves (orch s) r Agent.handle_error ty).
      intros a _. unfold agent_evolves. simpl. split_and!; [done|done|lia].
    + apply (modify_agent_evolves (orch s) r
               (Agent._track_usage tokens
                  (Agent._calculate_cost tokens true)) ty).
      intros a _. unfold agent_evolves. simpl. split_and!; [done|done|lia].
    + apply (modify_agent_evolves (orch s) r
               (Agent._track_usage tokens
                  (Agent._calculate_cost tokens true)) ty).
      intros a _. unfold agent_evolves. simpl. split_and!; [done|done|lia].
Qed.

(** X15. No event adds, removes or reorders agents: along every schedule
    each list of [_agents] keeps its length and, position by position, the
    same agent id and agent type, and an agent's count of completed tasks
    never goes down; so the ["agents"] entry of [get_system_status] is the
    same after the schedule as before. *)
Theorem pool_keeps_agents s events s' :
  run settings s events = Some s' →
  (∀ ty, Forall2 agent_evolves (agents_of (_agents (orch s)) ty)
           (agents_of (_agents (orch s')) ty)) ∧
  (∀ ty, Agent.agent_id <$> agents_of (_agents (orch s')) ty
         = Agent.agent_id <$> agents_of (_agents (orch s)) ty) ∧
  status_agents (get_system_status (orch s'))
  = status_agents (get_system_status (orch s)).
Proof.
  intros Hrun.
  assert (∀ ty, Forall2 agent_evolves (agents_of (_agents (orch s)) ty)
                  (agents_of (_agents (orch s')) ty)) as Hpool.
  { intros ty. revert s Hrun.
    induction events as [|e events IH]; intros s; simpl.
    - intros [= <-]. apply pool_evolves_refl.
    - destruct (step settings s e) as [s1|] eqn:E; [|done].
      intros Hrun.
      eapply Forall2_trans; [|by eapply step_pool_evolves|by apply IH].
      intros a b c. apply agent_evolves_trans. }
  split_and!; [done| |].
  - intros ty. specialize (Hpool ty).
    induction Hpool as [|a a' l l' (Hid & _) _ IH]; [done|].
    rewrite !fmap_cons. by f_equal.
  - pose proof (Forall2_length _ _ _ (Hpool CODE)) as Hcode.
    pose proof (Forall2_length _ _ _ (Hpool DESIGN)) as Hdesign.
    pose proof (Forall2_length _ _ _ (Hpool MARKETING)) as Hmarketing.
    unfold get_system_status. simpl in *. congruence.
Qed.

(** X16. [total_tasks_completed] counts the model responses an agent has
    handled, not the tasks that succeeded: a lifecycle whose model call
    delivers a response adds one to the counter of its agent whatever
    becomes of the task (failure result, cost rejection, failed
    validation), and a lifecycle whose model call raises adds nothing. *)
Theorem completed_counts_responses o tid task r a reply verdict :
  task_of o tid = Some task →
  _get_available_agent o (Task.type task) = Some (r, a) →
  ∃ o' a',
    _process_task settings o tid reply verdict = Return o' ∧
    agent_at o' r = Some a' ∧
    Agent.total_tasks_completed a'
    = (Agent.total_tasks_completed a + responses_in reply)%Z ∧
    Agent.current_task_id a' = None.
Proof.
  intros Ht Hsel. unfold _process_task.
  rewrite (process_start_dispatch _ _ _ _ _ _ Ht Hsel).
  apply get_available_agent_Some in Hsel as (_ & Ha & _).
  unfold process_model, execute_task_resume, after_execute,
    _check_cost_limit.
  destruct reply as [msg|result tokens]; simpl.
  - eexists _, _. split; [reflexivity|].
    unfold agent_at in *. simpl.
    rewrite !agents_of_with_agents_eq, !list_lookup_alter_eq, Ha. simpl.
    split; [reflexivity|]. simpl. split; [lia|done].
  - destruct (AgentResult.success result);
      [destruct (Qgtb _ _); [destruct (_cost_limit_reached o)|]|]; simpl.
    1,2,4: eexists _, _; (split; [reflexivity|]);
      unfold agent_at in *; simpl;
      rewrite !agents_of_with_agents_eq, !list_lookup_alter_eq, Ha; simpl;
      (split; [reflexivity|]); simpl; done.
    unfold process_verifier, validate_result_resume.
    destruct verdict as [vmsg|[] vtokens]; simpl;
      (eexists _, _; split; [reflexivity|]);
      unfold agent_at in *; simpl;
      rewrite !agents_of_with_agents_eq, !list_lookup_alter_eq, Ha; simpl;
      (split; [reflexivity|]); simpl; done.
Qed.

End PoolInvariants.

(** ** The system status *)

Section SystemStatusFacts.

Implicit Types (o : Orchestrator) (m : gmap string Task.t).

Lemma count_cons status (t : Task.t) (l : list Task.t) :
  length (filter (λ t, Task.status t = status) (t :: l))
  = (counted status t + length (filter (λ t, Task.status t = status) l))%nat.
Proof. rewrite filter_cons. unfold counted. by case_decide. Qed.

Lemma count_insert status m tid t :
  m !! tid = None →
  length (filter (λ t, Task.status t = status)
            (map_to_list (<[tid := t]> m)).*2)
  = (counted status t
     + length (filter (λ t, Task.status t = status) (map_to_list m).*2))%nat.
Proof.
  intros Hfresh. rewrite <- count_cons.
  apply Permutation_length.
  by rewrite (map_to_list_insert m tid t Hfresh).
Qed.

Lemma count_alter status m tid t f :
  m !! tid = Some t →
  (length (filter (λ t, Task.status t = status)
             (map_to_list (alter f tid m)).*2)
   + counted status t
   = length (filter (λ t, Task.status t = status) (map_to_list m).*2)
     + counted status (f t))%nat.
Proof.
  intros Ht.
  rewrite <- (insert_delete_id m tid t Ht) at 1 2.
  rewrite alter_insert_eq.
  rewrite !count_insert by apply lookup_delete_eq. lia.
Qed.

(** X17. The counters of [get_system_status] count each task at most
    once: the numbers of InProgress, Completed and Failed tasks it reports,
    together with the Pending and Verifying tasks it does not report, add
    up to the size of the registry. *)
Theorem system_status_counts o :
  (active_tasks (get_system_status o)
   + completed_tasks (get_system_status o)
   + failed_tasks (get_system_status o)
   + count_status PENDING o + count_status VERIFYING o
   = size (_tasks o))%nat ∧
  (active_tasks (get_system_status o)
   + completed_tasks (get_system_status o)
   + failed_tasks (get_system_status o) <= size (_tasks o))%nat.
Proof.
  assert (active_tasks (get_system_status o)
          + completed_tasks (get_system_status o)
          + failed_tasks (get_system_status o)
          + count_status PENDING o + count_status VERIFYING o
          = size (_tasks o))%nat as H; [|split; [done|lia]].
  simpl. unfold count_status, task_values.
  rewrite <- length_map_to_list, <- (length_fmap snd).
  induction ((map_to_list (_tasks o)).*2) as [|t l IH]; [done|].
  rewrite !count_cons. simpl. rewrite <- IH. unfold counted.
  destruct (Task.status t); repeat case_decide; try done; lia.
Qed.

(** X18. A submission under a fresh identifier leaves the three reported
    counters as they are (the new task is Pending).  A cancellation that
    answers [True] adds one to the Failed counter, leaves the Completed
    counter alone, and takes one off the InProgress counter exactly when
    the cancelled task was InProgress. *)
Theorem system_status_after_submit_cancel o tid :
  (task_of o tid = None →
   ∀ ty p,
     let st' := get_system_status (submit_task o tid ty p) in
     active_tasks st' = active_tasks (get_system_status o) ∧
     completed_tasks st' = completed_tasks (get_system_status o) ∧
     failed_tasks st' = failed_tasks (get_system_status o)) ∧
  (∀ o' t,
     cancel_task o tid = Return (o', true) →
     task_of o tid = Some t →
     failed_tasks (get_system_status o')
     = S (failed_tasks (get_system_status o)) ∧
     completed_tasks (get_system_status o')
     = completed_tasks (get_system_status o) ∧
     (active_tasks (get_system_status o') + counted IN_PROGRESS t
      = active_tasks (get_system_status o))%nat).
Proof.
  split.
  - intros Hfresh ty p. simpl. unfold count_status, task_values. simpl.
    rewrite !count_insert by done. done.
  - intros o' t. unfold cancel_task, task_of. intros Hcancel Ht.
    rewrite Ht in Hcancel.
    destruct (Task.is_terminal (Task.status t)) eqn:Hterm; [done|].
    injection Hcancel as <-. simpl. unfold count_status, task_values. simpl.
    pose proof (λ st, count_alter st (_tasks o) tid t
                  (λ t, Task.set_error (Some "Task cancelled by user")
                          (Task.update_status FAILED None t)) Ht) as H.
    pose proof (H FAILED) as Hf. pose proof (H COMPLETED) as Hc.
    pose proof (H IN_PROGRESS) as Ha.
    unfold counted in *. simpl in *.
    destruct (Task.status t); simpl in *; try done;
      repeat case_decide; try done; lia.
Qed.

End SystemStatusFacts.

(** ** Results built by [CodingAgent._parse_response] *)

Section ParsedReplies.

Variable settings : Settings.

Lemma parse_response_cost response :
  AgentResult.cost (_parse_response response) = 0%Q.
Proof.
  unfold _parse_response. by destruct (generations response) as [|[] ?].
Qed.

Lemma step_flag_change s e s' :
  step settings s e = Some s' →
  _cost_limit_reached (orch s') = _cost_limit_reached (orch s) ∨
  ∃ tid r tokens,
    e = ModelDone tid (ModelResponse r tokens) ∧
    (COST_LIMIT settings < _total_cost (orch s) + AgentResult.cost r)%Q.
Proof.
  destruct e as [tid ty p|tid|tid|tid reply|tid verdict]; simpl.
  - destruct (_tasks (orch s) !! tid); [done|]. intros [= <-]. by left.
  - unfold cancel_task. destruct (_tasks (orch s) !! tid) as [t|].
    + destruct (Task.is_terminal _); intros [= <-]; by left.
    + intros [= <-]. by left.
  - destruct (coros s !! tid) as [[]|]; try done.
    unfold process_start.
    destruct (_tasks (orch s) !! tid) as [task|]; [|intros [= <-]; by left].
    destruct (_get_available_agent _ _) as [[r a]|];
      [|intros [= <-]; by left].
    destruct (Agent.prepare_task a tid) as [a' []]; intros [= <-]; by left.
  - destruct (coros s !! tid) as [[| r | |]|]; try done.
    unfold process_model, execute_task_resume, after_execute,
      _check_cost_limit.
    destruct reply as [msg|result tokens]; simpl.
    + intros [= <-]. by left.
    + destruct (AgentResult.success result); [|intros [= <-]; by left].
      destruct (Qgtb _ _) eqn:E; [|intros [= <-]; by left].
      apply Qgtb_true in E. intros _. right. by exists tid, result, tokens.
  - destruct (coros s !! tid) as [[| | r result |]|]; try done.
    unfold process_verifier, validate_result_resume.
    destruct verdict as [msg|[] tokens]; intros [= <-]; by left.
Qed.

(** X19. [CodingAgent._parse_response] never sets the cost of the result
    it builds, and its failure result carries an error message.  So in
    every schedule whose model responses went through it, the ledger keeps
    its value, and, when that value is within the limit, no lifecycle is
    refused for its cost: the limit flag stays as it was. *)
Theorem parsed_replies_never_charge s events s' :
  Forall parsed_by_coding_agent events →
  run settings s events = Some s' →
  (_total_cost (orch s') == _total_cost (orch s))%Q ∧
  ((_total_cost (orch s) <= COST_LIMIT settings)%Q →
   _cost_limit_reached (orch s') = _cost_limit_reached (orch s)) ∧
  (∀ response,
     AgentResult.cost (_parse_response response) = 0%Q ∧
     reports_error (_parse_response response)).
Proof.
  intros Hev Hrun. split_and!.
  - revert s Hrun. induction Hev as [|e events He _ IH]; intros s; simpl.
    + by intros [= <-].
    + destruct (step settings s e) as [s1|] eqn:E; [|done].
      intros Hrun. rewrite (IH _ Hrun).
      apply step_total in E as [->|(tid & r & tk & -> & _ & _ & ->)];
        [done|].
      simpl in He. destruct He as [response [= -> _]].
      rewrite parse_response_cost. ring.
  - revert s Hrun. induction Hev as [|e events He _ IH]; intros s; simpl.
    + by intros [= <-].
    + destruct (step settings s e) as [s1|] eqn:E; [|done].
      intros Hrun Hin.
      assert (_total_cost (orch s1) == _total_cost (orch s))%Q as Htot.
      { pose proof E as E'.
        apply step_total in E' as [->|(tid & r & tk & -> & _ & _ & ->)];
          [done|].
        simpl in He. destruct He as [response [= -> _]].
        rewrite parse_response_cost. ring. }
      rewrite (IH _ Hrun) by (by rewrite Htot).
      apply step_flag_change in E as [->|(tid & r & tk & -> & Hover)];
        [done|].
      simpl in He. destruct He as [response [= -> _]].
      rewrite parse_response_cost in Hover. lra.
  - intros response. split; [apply parse_response_cost|].
    unfold reports_error, _parse_response.
    destruct (generations response) as [|[] ?]; simpl; [eauto|done].
Qed.

End ParsedReplies.

(** ** The further properties, computed *)

Lemma boot_on_track o : coroutines_on_track (boot o).
Proof. intros tid c Hc. simpl in Hc. by rewrite lookup_empty in Hc. Qed.

Lemma one_submitted_on_track : coroutines_on_track one_submitted.
Proof.
  apply (run_on_track limit_5 (boot ready) [Submit "t1" CODE MEDIUM]).
  - apply boot_on_track.
  - vm_compute. reflexivity.
Qed.

Lemma registry_keeps_tasks_witness :
  ∃ t', task_of (orch (state_after limit_5 one_submitted rest_of_A)) "t1"
        = Some t' ∧
        Task.task_id t' = "t1" ∧
        Task.type t' = CODE ∧
        Task.priority t' = MEDIUM.
Proof.
  apply (registry_keeps_tasks limit_5 one_submitted rest_of_A
           (state_after limit_5 one_submitted rest_of_A) "t1"
           (Task.init "t1" CODE MEDIUM)).
  - vm_compute. reflexivity.
  - vm_compute. reflexivity.
Defined.

Lemma progress_never_decreases_witness :
  ∃ t', task_of (orch (state_after limit_5 one_submitted rest_of_A)) "t1"
        = Some t' ∧
        (0 <= Task.progress t')%Q.
Proof.
  apply (progress_never_decreases limit_5 one_submitted rest_of_A
           (state_after limit_5 one_submitted rest_of_A) "t1"
           (Task.init "t1" CODE MEDIUM)).
  - exact one_submitted_on_track.
  - vm_compute. reflexivity.
  - vm_compute. reflexivity.
Defined.

Lemma cost_charged_once_witness :
  costs_kept (state_after limit_5 one_submitted [Start "t1"])
    (state_after limit_5 one_submitted (take 2 rest_of_A)) ∨
  cost_step (state_after limit_5 one_submitted [Start "t1"])
    (state_after limit_5 one_submitted (take 2 rest_of_A)).
Proof.
  destruct (cost_charged_once limit_5 one_submitted [Start "t1"]
              (state_after limit_5 one_submitted [Start "t1"]))
    as [_ Hstep].
  - exact one_submitted_on_track.
  - vm_compute. reflexivity.
  - apply (Hstep (ModelDone "t1" (ModelResponse (code_result 2) 10))).
    vm_compute. reflexivity.
Defined.

Lemma pool_keeps_agents_witness :
  status_agents
    (get_system_status (orch (state_after limit_5 (boot ready) schedule_A)))
  = [("code", 1%nat); ("design", 1%nat); ("marketing", 1%nat)].
Proof.
  destruct (pool_keeps_agents limit_5 (boot ready) schedule_A
              (state_after limit_5 (boot ready) schedule_A))
    as (_ & _ & H).
  - vm_compute. reflexivity.
  - exact H.
Defined.

Lemma completed_counts_responses_witness :
  ∃ o' a',
    _process_task limit_5 nearly_spent "t1"
      (ModelResponse (code_result 1) 10) (VerifierSaid true 5) = Return o' ∧
    agent_at o' the_coding_agent = Some a' ∧
    Agent.total_tasks_completed a' = (0 + 1)%Z ∧
    Agent.current_task_id a' = None.
Proof.
  apply (completed_counts_responses limit_5 nearly_spent "t1"
           (Task.init "t1" CODE MEDIUM) the_coding_agent
           (Agent.init "coding-agent-1" CODING)
           (ModelResponse (code_result 1) 10) (VerifierSaid true 5)).
  - reflexivity.
  - reflexivity.
Defined.

Lemma system_status_after_submit_cancel_witness :
  failed_tasks
    (get_system_status (fail_task "t1" (Some "Task cancelled by user")
                          (submit_task ready "t1" CODE MEDIUM)))
  = S (failed_tasks (get_system_status (submit_task ready "t1" CODE MEDIUM))).
Proof.
  destruct (system_status_after_submit_cancel
              (submit_task ready "t1" CODE MEDIUM) "t1") as [_ Hcancel].
  apply (Hcancel _ (Task.init "t1" CODE MEDIUM)).
  - reflexivity.
  - reflexivity.
Defined.

Lemma parsed_replies_never_charge_witness :
  (_total_cost (orch (state_after limit_5 (boot ready) schedule_parsed))
   == _total_cost (orch (boot ready)))%Q ∧
  _cost_limit_reached (orch (state_after limit_5 (boot ready) schedule_parsed))
  = _cost_limit_reached (orch (boot ready)).
Proof.
  destruct (parsed_replies_never_charge limit_5 (boot ready) schedule_parsed
              (state_after limit_5 (boot ready) schedule_parsed))
    as (Htot & Hflag & _).
  - repeat apply Forall_cons_2; try apply Forall_nil_2; simpl; try exact I.
    by exists a_response.
  - vm_compute. reflexivity.
  - split; [exact Htot|]. apply Hflag. vm_compute. discriminate.
Defined.

(** ** Returned lifecycles and start-up *)

Section Settled.

Variable settings : Settings.

Lemma effect_settled s s' :
  task_effect s s' → coroutines_settled s → coroutines_settled s'.
Proof.
  intros Heff Hs tid c Hc. unfold task_of in *.
  destruct Heff as [tid0 ty p Hfresh Htasks _ Hco | Htasks _ Hco
                   | tid0 t0 _ _ Htasks _ Hco
                   | tid0 w c0 c1 Hc0 Hmove Htasks _ Hco];
    rewrite Htasks.
  - rewrite Hco in Hc.
    apply lookup_insert_Some in Hc as [[<- <-]|[Hne Hc]].
    + rewrite lookup_insert_eq. by eexists.
    + rewrite lookup_insert_ne by done. by apply Hs.
  - destruct Hco as [Hco|(tid0 & Hc0 & Hnone & Hco)]; rewrite Hco in Hc.
    + by apply Hs.
    + destruct (Hs _ _ Hc0) as (t & Ht & _). unfold task_of in *. congruence.
  - rewrite Hco in Hc. destruct (Hs _ _ Hc) as (t & Ht & Hterm).
    unfold task_of in Ht.
    destruct (decide (tid0 = tid)) as [->|Hne].
    + rewrite lookup_alter_eq, Ht. simpl. by eexists.
    + rewrite lookup_alter_ne by done. by exists t.
  - rewrite Hco in Hc.
    apply lookup_insert_Some in Hc as [[<- <-]|[Hne Hc]].
    + destruct (Hs _ _ Hc0) as (t & Ht & _). unfold task_of in Ht.
      rewrite lookup_alter_eq, Ht. simpl. eexists. split; [done|].
      intros ->. destruct c0, w; simpl in *; done.
    + rewrite lookup_alter_ne by done. by apply Hs.
Qed.

(** X20. A lifecycle that has returned has left its task Completed or
    Failed: in every schedule from start-up, cancellations and
    interleavings included, the coroutine of a task always has its task in
    the registry, and once the coroutine has returned the task is
    terminal. *)
Theorem returned_lifecycle_is_terminal o events s' tid :
  run settings (boot o) events = Some s' →
  coros s' !! tid = Some Returned →
  ∃ t, task_of (orch s') tid = Some t ∧
       Task.is_terminal (Task.status t) = true.
Proof.
  intros Hrun Hc.
  assert (coroutines_settled s') as Hs.
  { assert (coroutines_settled (boot o)) as Hboot.
    { intros t c H. simpl in H. by rewrite lookup_empty in H. }
    revert Hrun Hboot. generalize (boot o). clear Hc.
    induction events as [|e events IH]; intros s; simpl.
    - by intros [= <-].
    - destruct (step settings s e) as [s1|] eqn:E; [|done].
      intros Hrun Hs. apply (IH _ Hrun).
      eapply effect_settled; [|done]. by eapply step_task_effect. }
  destruct (Hs _ _ Hc) as (t & Ht & Hterm). exists t. auto.
Qed.

End Settled.

Section StartUp.

Implicit Types (o : Orchestrator) (ty : TaskType).

(** X21. [Orchestrator.initialize] answers [True] whether or not the
    agents could be initialised: each type gets its agent, idle and last in
    its list, exactly when that agent's own [initialize] succeeded, and a
    type whose agent failed is left as it was; tasks and ledger are not
    touched. *)
Theorem initialize_reports_success o code_ok design_ok marketing_ok :
  let result := initialize_with o code_ok design_ok marketing_ok in
  result.2 = true ∧
  (∀ ty,
     agents_of (_agents result.1) ty
     = (agents_of (_agents o) ty
        ++ if initialized_ok code_ok design_ok marketing_ok ty
           then [Agent.init (first_agent_id ty) (agent_class ty)]
           else [])%list) ∧
  _tasks result.1 = _tasks o ∧
  _total_cost result.1 = _total_cost o ∧
  initialize o = (initialize_with o true true true).1.
Proof.
  simpl. split_and!; try done.
  - intros ty. unfold initialize_with, _create_agent.
    destruct code_ok, design_ok, marketing_ok, ty, o as [[] ? ? ?];
      simpl; by rewrite ?app_nil_r.
  - unfold initialize_with, _create_agent.
    by destruct code_ok, design_ok, marketing_ok.
  - unfold initialize_with, _create_agent.
    by destruct code_ok, design_ok, marketing_ok.
Qed.

End StartUp.

Lemma returned_lifecycle_is_terminal_witness :
  ∃ t, task_of (orch (state_after limit_5 (boot ready) schedule_D)) "t1"
       = Some t ∧
       Task.is_terminal (Task.status t) = true.
Proof.
  apply (returned_lifecycle_is_terminal limit_5 ready schedule_D
           (state_after limit_5 (boot ready) schedule_D) "t1").
  - vm_compute. reflexivity.
  - vm_compute. reflexivity.
Defined.

Lemma cancel_task_effect_witness :
  ∃ o' answer,
    cancel_task (submit_task ready "t1" CODE MEDIUM) "t1"
    = Return (o', answer) ∧
    (answer = true ↔
     ∃ t, task_of (submit_task ready "t1" CODE MEDIUM) "t1" = Some t ∧
          Task.is_terminal (Task.status t) = false) ∧
    cancel_task o' "t1" = Return (o', false).
Proof.
  destruct (cancel_task_effect (submit_task ready "t1" CODE MEDIUM) "t1")
    as (o' & answer & H1 & H2 & _ & _ & _ & _ & _ & _ & H9).
  by exists o', answer.
Defined.
